(** * Object tasks: Rectangle and the CSS selector builder

    A shallow embedding of [08-objects-tasks.js].

    - JavaScript numbers are IEEE-754 binary64 values: [PrimFloat.float].
    - Builder objects live in a heap (a list of objects addressed by their
      index, [new Selector()] appends); a combinator entry holds the
      addresses of its two operands, so aliasing is visible.
    - Methods run in a state-and-exception monad over the heap; a thrown
      exception keeps the heap as it was at the [throw].
    - [getJSON] and [fromJSON] only delegate to the engine's [JSON] object
      and [Object.setPrototypeOf]; they are not modelled. *)

From Stdlib Require Import ZArith String.
From Stdlib Require Import Floats.PrimFloat.
From stdpp Require Import base option list strings.

Open Scope Z_scope.

(** ** Rectangle *)

(** [function Rectangle(width, height)]: the two own fields of the object. *)
Record Rectangle := new_Rectangle { width : float; height : float }.

(** [Rectangle.prototype.getArea] *)
Definition getArea (this : Rectangle) : float :=
  PrimFloat.mul (width this) (height this).

(** ** Heap of selector objects *)

Definition loc := nat.
Bind Scope nat_scope with loc.

(** The strings used as second component of an entry. *)
Inductive tag :=
  | Element | Id | Class | Attr | PseudoClass | PseudoElement | Combine.

#[global] Instance tag_eq_dec : EqDecision tag.
Proof. solve_decision. Defined.

(** An element of [this.selectors]: [[value, type]] pushed by a token method,
    or [[[selector1, combinator, selector2], 'combine']] pushed by
    [combine]. *)
Inductive entry :=
  | Simple (value : string) (type : tag)
  | Combined (selector1 : loc) (combinator : string) (selector2 : loc).

(** [cur[1]] *)
Definition type_of (cur : entry) : tag :=
  match cur with
  | Simple _ type => type
  | Combined _ _ _ => Combine
  end.

(** The own fields set by [function Selector()]. *)
Record Selector := mkSelector {
  selectors : list entry;
  validSort : list tag
}.

Abbreviation heap := (list Selector).

(** ** Exceptions and the method monad *)

Inductive exn :=
  | Error (message : string)
  | TypeError
  | RangeError.

Inductive completion (A : Type) :=
  | Normal (a : A)
  | Throw (e : exn).
Arguments Normal {A} a.
Arguments Throw {A} e.

Definition M (A : Type) : Type := heap → completion A * heap.

Definition ret {A} (a : A) : M A := λ h, (Normal a, h).

Definition throw {A} (e : exn) : M A := λ h, (Throw e, h).

Definition bind {A B} (m : M A) (k : A → M B) : M B :=
  λ h, match m h with
       | (Normal a, h') => k a h'
       | (Throw e, h') => (Throw e, h')
       end.

Declare Scope js_scope.
Delimit Scope js_scope with js.
Notation "x <- m ;; k" := (bind m (λ x, k))
  (at level 100, m at next level, right associativity) : js_scope.
Notation "m ;; k" := (bind m (λ _, k))
  (at level 100, right associativity) : js_scope.
Open Scope js_scope.

(** Reading a field of an object that does not exist is a [TypeError]. *)
Definition read (this : loc) : M Selector :=
  λ h, match h !! this with
       | Some o => (Normal o, h)
       | None => (Throw TypeError, h)
       end.

Definition write (this : loc) (o : Selector) : M unit :=
  λ h, (Normal tt, <[this := o]> h).

Definition alloc (o : Selector) : M loc :=
  λ h, (Normal (length h), h ++ [o]).

(** [new Selector()] *)
Definition new_Selector : M loc :=
  alloc {| selectors := []; validSort := [] |}.

(** [array.forEach]-style iteration that stops at the first throw; the
    callback of [validSort.map] in [validate] returns nothing. *)
Fixpoint forEach {A} (f : A → M unit) (array : list A) : M unit :=
  match array with
  | [] => ret tt
  | x :: rest => f x ;; forEach f rest
  end.

(** [array.reduce(f, init)] with an effectful callback. *)
Fixpoint reduce {A B} (f : B → A → M B) (array : list A) (init : B) : M B :=
  match array with
  | [] => ret init
  | cur :: rest => prev <- f init cur ;; reduce f rest prev
  end.

(** [Array.prototype.indexOf]: the first index, [-1] when absent. *)
Fixpoint indexOf_from (i : Z) (array : list tag) (x : tag) : Z :=
  match array with
  | [] => -1
  | y :: rest => if decide (y = x) then i else indexOf_from (i + 1) rest x
  end.

Definition indexOf (array : list tag) (x : tag) : Z := indexOf_from 0 array x.

Definition duplicate_message : string :=
  "Element, id and pseudo-element should not occur more then one time inside the selector".

Definition order_message : string :=
  "Selector parts should be arranged in the following order: element, id, class, attribute, pseudo-class, pseudo-element".

(** ** Selector.prototype *)

Module Selector_prototype.

Definition sortSelectors : list tag :=
  [Element; Id; Class; Attr; PseudoClass; PseudoElement].

(** [this.selectors.push(value)] *)
Definition push (this : loc) (value : entry) : M unit :=
  o <- read this ;;
  write this {| selectors := selectors o ++ [value]; validSort := validSort o |}.

Fixpoint include (value : entry) (array : list entry) : bool :=
  match array with
  | [] => false
  | cur :: rest =>
      if decide (type_of cur = type_of value) then true else include value rest
  end.

Definition tryPush (this : loc) (value : entry) : M unit :=
  o <- read this ;;
  if include value (selectors o)
  then throw (Error duplicate_message)
  else push this value.

Definition validate (this : loc) (value : tag) : M unit :=
  o <- read this ;;
  (if decide (length (validSort o) = 0%nat)
   then write this
          {| selectors := selectors o;
             validSort := foldl (λ vs cur, vs ++ [type_of cur])
                                (validSort o) (selectors o) |}
   else ret tt) ;;
  o <- read this ;;
  forEach (λ val,
             if indexOf sortSelectors val >? indexOf sortSelectors value
             then throw (Error order_message)
             else ret tt)
          (validSort o).

Definition element (this : loc) (value : string) : M loc :=
  validate this Element ;;
  tryPush this (Simple value Element) ;;
  ret this.

Definition id (this : loc) (value : string) : M loc :=
  validate this Id ;;
  tryPush this (Simple value Id) ;;
  ret this.

Definition class (this : loc) (value : string) : M loc :=
  validate this Class ;;
  push this (Simple value Class) ;;
  ret this.

Definition attr (this : loc) (value : string) : M loc :=
  validate this Attr ;;
  push this (Simple value Attr) ;;
  ret this.

Definition pseudoClass (this : loc) (value : string) : M loc :=
  validate this PseudoClass ;;
  push this (Simple value PseudoClass) ;;
  ret this.

Definition pseudoElement (this : loc) (value : string) : M loc :=
  validate this PseudoElement ;;
  tryPush this (Simple value PseudoElement) ;;
  ret this.

Definition combine (this : loc) (selector1 : loc) (combinator : string)
    (selector2 : loc) : M loc :=
  tryPush this (Combined selector1 combinator selector2) ;;
  ret this.

(** The [switch] of [stringify] on an entry [[value, type]] whose value is
    a string.  Under ['combine'] the code calls [value[0].stringify()],
    which a string does not have. *)
Definition str_of (value : string) (type : tag) : M string :=
  match type with
  | Element => ret value
  | Id => ret ("#" +:+ value)
  | Class => ret ("." +:+ value)
  | Attr => ret ("[" +:+ value +:+ "]")
  | PseudoClass => ret (":" +:+ value)
  | PseudoElement => ret ("::" +:+ value)
  | Combine => throw TypeError
  end.

(** [stringify] calls itself on the operands of a combinator entry; the
    heap may hold a cycle, so the depth of nested calls is bounded by
    [fuel] and exceeding it is the engine's [RangeError]. *)
Fixpoint stringify (fuel : nat) (this : loc) : M string :=
  match fuel with
  | O => throw RangeError
  | S fuel' =>
      o <- read this ;;
      reduce (λ prev cur,
                str <- match cur with
                       | Simple value type => str_of value type
                       | Combined selector1 combinator selector2 =>
                           s1 <- stringify fuel' selector1 ;;
                           s2 <- stringify fuel' selector2 ;;
                           ret (s1 +:+ " " +:+ combinator +:+ " " +:+ s2)
                       end ;;
                ret (prev +:+ str))
             (selectors o) ""
  end.

End Selector_prototype.

(** ** The facade *)

Module cssSelectorBuilder.

Definition element (value : string) : M loc :=
  this <- new_Selector ;; Selector_prototype.element this value.

Definition id (value : string) : M loc :=
  this <- new_Selector ;; Selector_prototype.id this value.

Definition class (value : string) : M loc :=
  this <- new_Selector ;; Selector_prototype.class this value.

Definition attr (value : string) : M loc :=
  this <- new_Selector ;; Selector_prototype.attr this value.

Definition pseudoClass (value : string) : M loc :=
  this <- new_Selector ;; Selector_prototype.pseudoClass this value.

Definition pseudoElement (value : string) : M loc :=
  this <- new_Selector ;; Selector_prototype.pseudoElement this value.

Definition combine (selector1 : loc) (combinator : string) (selector2 : loc)
    : M loc :=
  this <- new_Selector ;;
  Selector_prototype.combine this selector1 combinator selector2.

End cssSelectorBuilder.

(** ** Calls, constructed heaps and reachability *)

(** A call of one of the seven chainable methods. *)
Inductive call :=
  | call_element (value : string)
  | call_id (value : string)
  | call_class (value : string)
  | call_attr (value : string)
  | call_pseudoClass (value : string)
  | call_pseudoElement (value : string)
  | call_combine (selector1 : loc) (combinator : string) (selector2 : loc).

Definition invoke (this : loc) (c : call) : M loc :=
  match c with
  | call_element value => Selector_prototype.element this value
  | call_id value => Selector_prototype.id this value
  | call_class value => Selector_prototype.class this value
  | call_attr value => Selector_prototype.attr this value
  | call_pseudoClass value => Selector_prototype.pseudoClass this value
  | call_pseudoElement value => Selector_prototype.pseudoElement this value
  | call_combine selector1 combinator selector2 =>
      Selector_prototype.combine this selector1 combinator selector2
  end.

(** The entry a call appends when it succeeds. *)
Definition entry_of (c : call) : entry :=
  match c with
  | call_element value => Simple value Element
  | call_id value => Simple value Id
  | call_class value => Simple value Class
  | call_attr value => Simple value Attr
  | call_pseudoClass value => Simple value PseudoClass
  | call_pseudoElement value => Simple value PseudoElement
  | call_combine selector1 combinator selector2 =>
      Combined selector1 combinator selector2
  end.

(** The heaps a program can produce: from the empty heap by [new Selector()]
    and method calls, whether they return or throw. *)
Inductive built : heap → Prop :=
  | built_empty : built []
  | built_new h : built h → built (new_Selector h).2
  | built_invoke h this c : built h → built (invoke this c h).2.

(** The list of types of the entries of an object. *)
Definition types (o : Selector) : list tag := type_of <$> selectors o.

(** What the first part of [validate] leaves in the object. *)
Definition refresh (o : Selector) : Selector :=
  match validSort o with
  | [] => {| selectors := selectors o; validSort := types o |}
  | _ :: _ => o
  end.

(** The test made by the second part of [validate]. *)
Definition out_of_order (value : tag) (vs : list tag) : bool :=
  existsb (λ val, indexOf Selector_prototype.sortSelectors val
                  >? indexOf Selector_prototype.sortSelectors value) vs.

Definition pushed (o : Selector) (value : entry) : Selector :=
  {| selectors := selectors o ++ [value]; validSort := validSort o |}.

(** [reach h a b]: builder [b] is [a] or an operand, at any depth, of a
    combinator entry of [a]. *)
Inductive reach (h : heap) : loc → loc → Prop :=
  | reach_here a : reach h a a
  | reach_selector1 a o l op r b :
      h !! a = Some o → Combined l op r ∈ selectors o →
      reach h l b → reach h a b
  | reach_selector2 a o l op r b :
      h !! a = Some o → Combined l op r ∈ selectors o →
      reach h r b → reach h a b.

(** ** The string a builder renders to, as a function of the heap *)

(** Textual form of an entry whose value is a string. *)
Definition form (value : string) (type : tag) : completion string :=
  match type with
  | Element => Normal value
  | Id => Normal ("#" +:+ value)
  | Class => Normal ("." +:+ value)
  | Attr => Normal ("[" +:+ value +:+ "]")
  | PseudoClass => Normal (":" +:+ value)
  | PseudoElement => Normal ("::" +:+ value)
  | Combine => Throw TypeError
  end.

Fixpoint append_forms (f : entry → completion string) (array : list entry)
    (prev : string) : completion string :=
  match array with
  | [] => Normal prev
  | cur :: rest =>
      match f cur with
      | Normal str => append_forms f rest (prev +:+ str)
      | Throw e => Throw e
      end
  end.

(** Textual form of an entry, [rec] giving the string of a builder. *)
Definition entry_form (rec : loc → completion string) (cur : entry)
    : completion string :=
  match cur with
  | Simple value type => form value type
  | Combined l op r =>
      match rec l with
      | Normal s1 =>
          match rec r with
          | Normal s2 => Normal (s1 +:+ " " +:+ op +:+ " " +:+ s2)
          | Throw e => Throw e
          end
      | Throw e => Throw e
      end
  end.

(** The completion of [stringify] as a function of the heap;
    [stringify_render] relates the two. *)
Fixpoint render (fuel : nat) (h : heap) (this : loc) : completion string :=
  match fuel with
  | O => Throw RangeError
  | S fuel' =>
      match h !! this with
      | None => Throw TypeError
      | Some o => append_forms (entry_form (render fuel' h)) (selectors o) ""
      end
  end.

(** [stringify] on [this] returns [s] (with some bound on the call depth). *)
Definition renders (h : heap) (this : loc) (s : string) : Prop :=
  ∃ fuel, Selector_prototype.stringify fuel this h = (Normal s, h).

(** The text of one entry as the specification gives it, the strings of
    the operands of a combinator entry being those [stringify] returns. *)
Definition entry_text (h : heap) (cur : entry) (str : string) : Prop :=
  match cur with
  | Simple value Element => str = value
  | Simple value Id => str = "#" +:+ value
  | Simple value Class => str = "." +:+ value
  | Simple value Attr => str = "[" +:+ value +:+ "]"
  | Simple value PseudoClass => str = ":" +:+ value
  | Simple value PseudoElement => str = "::" +:+ value
  | Simple value Combine => False
  | Combined l op r =>
      ∃ s1 s2, renders h l s1 ∧ renders h r s2 ∧
               str = s1 +:+ " " +:+ op +:+ " " +:+ s2
  end.

(** Concatenation of a list of strings, left to right. *)
Definition join (strs : list string) : string := foldr String.append "" strs.

(** *** One call, seen from the object it is made on *)

(** The types pushed through [tryPush]. *)
Definition once (t : tag) : bool :=
  match t with
  | Element | Id | PseudoElement | Combine => true
  | Class | Attr | PseudoClass => false
  end.

Definition guarded (c : call) : bool := once (type_of (entry_of c)).

(** The calls that start with [validate]. *)
Definition validated (c : call) : bool :=
  match c with
  | call_combine _ _ _ => false
  | _ => true
  end.

(** Outcome of a call on an object: how it completes and what it leaves in
    the object.  [invoke_step] relates it to [invoke]. *)
Definition step (c : call) (o : Selector) : completion unit * Selector :=
  let o1 := if validated c then refresh o else o in
  if validated c && out_of_order (type_of (entry_of c)) (validSort o1)
  then (Throw (Error order_message), o1)
  else if guarded c && Selector_prototype.include (entry_of c) (selectors o1)
  then (Throw (Error duplicate_message), o1)
  else (Normal tt, pushed o1 (entry_of c)).

(** *** Invariants of constructed objects *)

(** The list [validate] checks against. *)
Definition cache (o : Selector) : list tag := validSort (refresh o).

(** No type in the cache ranks above the type of a token entry. *)
Definition cache_below (o : Selector) : Prop :=
  ∀ val t, val ∈ cache o → t ∈ types o → t ≠ Combine →
    indexOf Selector_prototype.sortSelectors val
    ≤ indexOf Selector_prototype.sortSelectors t.

Definition occurrences (t : tag) (o : Selector) : nat :=
  count_occ tag_eq_dec (types o) t.

Definition single (o : Selector) : Prop :=
  ∀ t, once t = true → (occurrences t o ≤ 1)%nat.

(** No entry pairs a string with ['combine']. *)
Definition well_typed (o : Selector) : Prop :=
  ∀ value, Simple value Combine ∉ selectors o.

(** [rank] decreases from a builder to the operands of its combinator
    entries, which are objects of the heap: the heap has no cycle. *)
Definition ranked (h : heap) (rank : loc → nat) : Prop :=
  ∀ a o l op r, h !! a = Some o → Combined l op r ∈ selectors o →
    is_Some (h !! l) ∧ is_Some (h !! r)
    ∧ (rank l < rank a)%nat ∧ (rank r < rank a)%nat.

(** Combinator entries refer to objects of the heap. *)
Definition closed (h : heap) : Prop :=
  ∀ a o l op r, h !! a = Some o → Combined l op r ∈ selectors o →
    (l < length h)%nat ∧ (r < length h)%nat.

(** *** Programs whose operands exist, and programs that use the facade *)

(** The operands of a [combine] are builders that exist. *)
Definition operands_in (h : heap) (c : call) : Prop :=
  match c with
  | call_combine selector1 _ selector2 =>
      (selector1 < length h)%nat ∧ (selector2 < length h)%nat
  | _ => True
  end.

(** Heaps produced by [new Selector()] and method calls whose operands are
    builders of the heap. *)
Inductive linked : heap → Prop :=
  | linked_empty : linked []
  | linked_new h : linked h → linked (new_Selector h).2
  | linked_invoke h this c :
      linked h → operands_in h c → linked (invoke this c h).2.

(** The entry point of [cssSelectorBuilder] that corresponds to a call. *)
Definition facade (c : call) : M loc :=
  match c with
  | call_element value => cssSelectorBuilder.element value
  | call_id value => cssSelectorBuilder.id value
  | call_class value => cssSelectorBuilder.class value
  | call_attr value => cssSelectorBuilder.attr value
  | call_pseudoClass value => cssSelectorBuilder.pseudoClass value
  | call_pseudoElement value => cssSelectorBuilder.pseudoElement value
  | call_combine selector1 combinator selector2 =>
      cssSelectorBuilder.combine selector1 combinator selector2
  end.

(** Heaps produced through the facade: its entry points (with operands that
    exist) and the six token methods chained on their results; the method
    [combine] of an existing builder is not used. *)
Inductive facade_built : heap → Prop :=
  | facade_empty : facade_built []
  | facade_entry h c :
      facade_built h → operands_in h c → facade_built (facade c h).2
  | facade_token h this c :
      facade_built h → validated c = true → facade_built (invoke this c h).2.

(** [validSort] is a copy of the types of the first entries. *)
Definition snapshot (o : Selector) : Prop := validSort o `prefix_of` types o.

(** A token type in the cache is the type of the first entry. *)
Definition first_only (o : Selector) : Prop :=
  ∀ val, val ∈ cache o → val ≠ Combine → head (types o) = Some val.

(** The operands of a combinator entry were allocated before its holder. *)
Definition ordered (h : heap) : Prop :=
  ∀ a o l op r, h !! a = Some o → Combined l op r ∈ selectors o →
    (l < a)%nat ∧ (r < a)%nat.

(** The heap after [cssSelectorBuilder.id('main').class('container')], and
    its one object. *)
Definition id_class_heap : heap :=
  ((b <- cssSelectorBuilder.id "main" ;;
    Selector_prototype.class b "container") []).2.

Definition id_class_object : Selector :=
  {| selectors := [Simple "main" Id; Simple "container" Class];
     validSort := [Id] |}.

(** Method chaining: [this.m1(...).m2(...)...], each call made on the
    builder the previous one returned. *)
Fixpoint chain (this : loc) (cs : list call) : M loc :=
  match cs with
  | [] => ret this
  | c :: rest => b <- invoke this c ;; chain b rest
  end.

(** [c'] may come after [c]: it does not rank below [c], and it is not a
    second [element], [id] or [pseudoElement]. *)
Definition may_follow (c c' : call) : bool :=
  (indexOf Selector_prototype.sortSelectors (type_of (entry_of c))
   <=? indexOf Selector_prototype.sortSelectors (type_of (entry_of c')))
  && negb (guarded c'
           && bool_decide (type_of (entry_of c) = type_of (entry_of c'))).

(** Token calls in non-decreasing rank order that repeat no guarded type. *)
Fixpoint in_order (cs : list call) : bool :=
  match cs with
  | [] => true
  | c :: rest => validated c && forallb (may_follow c) rest && in_order rest
  end.

(** The object [new Selector()] allocates. *)
Definition empty_Selector : Selector := {| selectors := []; validSort := [] |}.

(** ** Properties *)

(** *** The monad *)

Lemma bind_normal {A B} (m : M A) (k : A → M B) h a h' :
  m h = (Normal a, h') → bind m k h = k a h'.
Proof. intros E. unfold bind. by rewrite E. Qed.

Lemma bind_throw {A B} (m : M A) (k : A → M B) h e h' :
  m h = (Throw e, h') → bind m k h = (Throw e, h').
Proof. intros E. unfold bind. by rewrite E. Qed.

Lemma read_some this (h : heap) o : h !! this = Some o → read this h = (Normal o, h).
Proof. intros E. unfold read. by rewrite E. Qed.

Lemma read_none this (h : heap) : h !! this = None → read this h = (Throw TypeError, h).
Proof. intros E. unfold read. by rewrite E. Qed.

Lemma write_same (this : loc) (h : heap) o :
  h !! this = Some o → <[this := o]> h = h.
Proof. apply list_insert_id. Qed.

(** *** The loops of [validate] and [tryPush] *)

Lemma foldl_push vs (array : list entry) :
  foldl (λ vs cur, vs ++ [type_of cur]) vs array = vs ++ (type_of <$> array).
Proof.
  revert vs. induction array as [|cur rest IH]; intros vs; simpl.
  - by rewrite app_nil_r.
  - rewrite IH. by rewrite <- app_assoc.
Qed.

Lemma forEach_throws (P : tag → bool) e vs h :
  forEach (λ val, if P val then throw e else ret tt) vs h
  = (if existsb P vs then Throw e else Normal tt, h).
Proof.
  induction vs as [|val rest IH]; simpl; [done|].
  unfold bind. destruct (P val); simpl; [done|]. apply IH.
Qed.

Lemma include_elem_of value array :
  Selector_prototype.include value array = true
  ↔ type_of value ∈ type_of <$> array.
Proof.
  induction array as [|cur rest IH]; simpl.
  - split; [done|]. intros H. by apply elem_of_nil in H.
  - destruct (decide (type_of cur = type_of value)) as [E|NE].
    + split; [|done]. intros _. rewrite E. apply list_elem_of_here.
    + rewrite IH. split.
      * intros H. by apply list_elem_of_further.
      * intros H. apply elem_of_cons in H as [H|H]; [congruence|done].
Qed.

(** *** The methods, one object at a time *)

Lemma validate_spec this value h o :
  h !! this = Some o →
  Selector_prototype.validate this value h
  = (if out_of_order value (validSort (refresh o))
     then Throw (Error order_message) else Normal tt,
     <[this := refresh o]> h).
Proof.
  intros Ho. unfold Selector_prototype.validate.
  rewrite (bind_normal _ _ _ _ _ (read_some _ _ _ Ho)).
  assert (Hlt : (this < length h)%nat) by (by eapply lookup_lt_Some).
  unfold refresh, types. destruct (validSort o) as [|v vs] eqn:Evs; simpl.
  - unfold bind at 1. unfold write.
    erewrite bind_normal; last by (apply read_some, list_lookup_insert_eq).
    simpl. rewrite foldl_push. simpl. apply forEach_throws.
  - unfold bind at 1. unfold ret at 1.
    rewrite (bind_normal _ _ _ _ _ (read_some _ _ _ Ho)).
    rewrite Evs. rewrite (write_same _ _ _ Ho).
    apply (forEach_throws _ _ (v :: vs)).
Qed.

Lemma push_spec this value h o :
  h !! this = Some o →
  Selector_prototype.push this value h = (Normal tt, <[this := pushed o value]> h).
Proof.
  intros Ho. unfold Selector_prototype.push.
  by rewrite (bind_normal _ _ _ _ _ (read_some _ _ _ Ho)).
Qed.

Lemma tryPush_spec this value h o :
  h !! this = Some o →
  Selector_prototype.tryPush this value h
  = if Selector_prototype.include value (selectors o)
    then (Throw (Error duplicate_message), h)
    else (Normal tt, <[this := pushed o value]> h).
Proof.
  intros Ho. unfold Selector_prototype.tryPush.
  rewrite (bind_normal _ _ _ _ _ (read_some _ _ _ Ho)).
  destruct (Selector_prototype.include _ _); [done|]. by apply push_spec.
Qed.

Lemma validate_none this value h :
  h !! this = None → Selector_prototype.validate this value h = (Throw TypeError, h).
Proof. intros E. unfold Selector_prototype.validate. apply bind_throw, read_none, E. Qed.

Lemma tryPush_none this value h :
  h !! this = None → Selector_prototype.tryPush this value h = (Throw TypeError, h).
Proof. intros E. unfold Selector_prototype.tryPush. apply bind_throw, read_none, E. Qed.

(** A call on an object that is not in the heap throws and changes nothing. *)
Lemma invoke_none this c h :
  h !! this = None → invoke this c h = (Throw TypeError, h).
Proof.
  intros E. destruct c; simpl;
    unfold Selector_prototype.element, Selector_prototype.id,
      Selector_prototype.class, Selector_prototype.attr,
      Selector_prototype.pseudoClass, Selector_prototype.pseudoElement,
      Selector_prototype.combine;
    apply bind_throw; auto using validate_none, tryPush_none.
Qed.

(** A call on an object of the heap changes that object as [step] says, and
    returns [this] when it returns. *)
Lemma invoke_step this c h o :
  h !! this = Some o →
  invoke this c h
  = (match (step c o).1 with Normal _ => Normal this | Throw e => Throw e end,
     <[this := (step c o).2]> h).
Proof.
  intros Ho.
  assert (Hlt : (this < length h)%nat) by (by eapply lookup_lt_Some).
  assert (Hr : <[this := refresh o]> h !! this = Some (refresh o))
    by (by apply list_lookup_insert_eq).
  destruct c; simpl;
    unfold Selector_prototype.element, Selector_prototype.id,
      Selector_prototype.class, Selector_prototype.attr,
      Selector_prototype.pseudoClass, Selector_prototype.pseudoElement,
      Selector_prototype.combine, step; simpl;
    try (unfold bind at 1; rewrite (validate_spec _ _ _ _ Ho);
         destruct (out_of_order _ _); simpl; [done|]);
    unfold bind at 1;
    rewrite ?(tryPush_spec _ _ _ _ Hr), ?(tryPush_spec _ _ _ _ Ho),
      ?(push_spec _ _ _ _ Hr);
    try destruct (Selector_prototype.include _ _); simpl;
    rewrite ?list_insert_insert_eq, ?(write_same _ _ _ Ho); done.
Qed.

(** *** Strings *)

Lemma append_assoc (a b c : string) : (a +:+ b) +:+ c = a +:+ (b +:+ c).
Proof.
  induction a as [|x a IH]; [done|].
  change (String x ((a +:+ b) +:+ c) = String x (a +:+ (b +:+ c))).
  by rewrite IH.
Qed.

Lemma append_empty_r (a : string) : a +:+ "" = a.
Proof.
  induction a as [|x a IH]; [done|].
  change (String x (a +:+ "") = String x a). by rewrite IH.
Qed.

(** *** [stringify] reads the heap and computes [render] *)

Lemma reduce_append (body : entry → M string) f array init h :
  (∀ cur, body cur h = (f cur, h)) →
  reduce (λ prev cur, str <- body cur ;; ret (prev +:+ str)) array init h
  = (append_forms f array init, h).
Proof.
  intros Hbody. revert init.
  induction array as [|cur rest IH]; intros init; simpl; [done|].
  unfold bind at 1. unfold bind at 1. rewrite Hbody.
  destruct (f cur) as [str|e]; simpl; [apply IH|done].
Qed.

Lemma str_of_form value type h :
  Selector_prototype.str_of value type h = (form value type, h).
Proof. by destruct type. Qed.

Lemma stringify_render fuel this h :
  Selector_prototype.stringify fuel this h = (render fuel h this, h).
Proof.
  revert this. induction fuel as [|fuel IH]; intros this; simpl; [done|].
  unfold bind at 1, read. destruct (h !! this) as [o|]; [|done].
  apply reduce_append. intros [value type|l op r]; simpl.
  - apply str_of_form.
  - unfold bind. rewrite (IH l). destruct (render fuel h l); [|done].
    rewrite (IH r). by destruct (render fuel h r).
Qed.

(** The examples of the source's documentation. *)

Example stringify_id_class_class :
  ((b <- cssSelectorBuilder.id "main" ;;
    b <- Selector_prototype.class b "container" ;;
    b <- Selector_prototype.class b "editable" ;;
    Selector_prototype.stringify 1 b) []).1
  = Normal "#main.container.editable".
Proof. reflexivity. Qed.

Example stringify_nested_combine :
  ((d <- cssSelectorBuilder.element "div" ;;
    d <- Selector_prototype.id d "main" ;;
    d <- Selector_prototype.class d "container" ;;
    d <- Selector_prototype.class d "draggable" ;;
    t <- cssSelectorBuilder.element "table" ;;
    t <- Selector_prototype.id t "data" ;;
    tr <- cssSelectorBuilder.element "tr" ;;
    tr <- Selector_prototype.pseudoClass tr "nth-of-type(even)" ;;
    td <- cssSelectorBuilder.element "td" ;;
    td <- Selector_prototype.pseudoClass td "nth-of-type(even)" ;;
    inner <- cssSelectorBuilder.combine tr " " td ;;
    middle <- cssSelectorBuilder.combine t "~" inner ;;
    outer <- cssSelectorBuilder.combine d "+" middle ;;
    Selector_prototype.stringify 4 outer) []).1
  = Normal "div#main.container.draggable + table#data ~ tr:nth-of-type(even)   td:nth-of-type(even)".
Proof. reflexivity. Qed.

(** *** More fuel never changes a returned string *)

Lemma append_forms_mono f g array prev s :
  (∀ cur str, f cur = Normal str → g cur = Normal str) →
  append_forms f array prev = Normal s → append_forms g array prev = Normal s.
Proof.
  intros Hfg. revert prev.
  induction array as [|cur rest IH]; intros prev; simpl; [done|].
  destruct (f cur) as [str|e] eqn:E; [|done].
  rewrite (Hfg _ _ E). apply IH.
Qed.

Lemma render_S fuel h this s :
  render fuel h this = Normal s → render (S fuel) h this = Normal s.
Proof.
  revert this s. induction fuel as [|fuel IH]; intros this s; [done|].
  intros H. simpl in H.
  change (render (S (S fuel)) h this) with
    (match h !! this with
     | None => Throw TypeError
     | Some o => append_forms (entry_form (render (S fuel) h)) (selectors o) ""
     end).
  destruct (h !! this) as [o|]; [|done].
  revert H. apply append_forms_mono. intros [value type|l op r] str; [done|].
  unfold entry_form.
  destruct (render fuel h l) as [s1|] eqn:E1; [|done].
  destruct (render fuel h r) as [s2|] eqn:E2; [|done].
  intros <-. by rewrite (IH _ _ E1), (IH _ _ E2).
Qed.

Lemma render_mono fuel fuel' h this s :
  (fuel ≤ fuel')%nat →
  render fuel h this = Normal s → render fuel' h this = Normal s.
Proof.
  induction 1 as [|fuel' _ IH]; [done|]. intros H. by apply render_S, IH.
Qed.

(** *** [append_forms] as a concatenation of texts *)

Lemma append_forms_join f array prev s :
  append_forms f array prev = Normal s
  ↔ ∃ strs, Forall2 (λ cur str, f cur = Normal str) array strs
            ∧ s = prev +:+ join strs.
Proof.
  revert prev. induction array as [|cur rest IH]; intros prev; simpl.
  - split.
    + intros [= <-]. exists []. split; [constructor|].
      by rewrite append_empty_r.
    + intros (strs & HF & ->). apply Forall2_nil_inv_l in HF as ->.
      simpl. by rewrite append_empty_r.
  - split.
    + destruct (f cur) as [str|e] eqn:E; [|done].
      intros (strs & HF & ->)%IH. exists (str :: strs). split.
      * by constructor.
      * simpl. by rewrite append_assoc.
    + intros (strs & HF & ->).
      apply Forall2_cons_inv_l in HF as (str & strs' & E & HF & ->).
      rewrite E. apply IH. exists strs'. split; [done|].
      simpl. by rewrite append_assoc.
Qed.

Lemma renders_render h this s : renders h this s ↔ ∃ fuel, render fuel h this = Normal s.
Proof.
  unfold renders. split; intros [fuel H]; exists fuel.
  - rewrite stringify_render in H. congruence.
  - rewrite stringify_render. by rewrite H.
Qed.

(** *** [stringify] against the textual forms of the entries *)

Lemma form_entry_text h value type str :
  form value type = Normal str ↔ entry_text h (Simple value type) str.
Proof. destruct type; simpl; split; try done; try congruence. Qed.

Lemma entry_form_text fuel h cur str :
  entry_form (render fuel h) cur = Normal str → entry_text h cur str.
Proof.
  destruct cur as [value type|l op r].
  - intros H. by apply form_entry_text.
  - simpl. destruct (render fuel h l) as [s1|] eqn:E1; [|done].
    destruct (render fuel h r) as [s2|] eqn:E2; [|done].
    intros [= <-]. exists s1, s2.
    split_and!; [apply renders_render; eauto..|done].
Qed.

Lemma entry_text_form h cur str :
  entry_text h cur str →
  ∃ fuel, ∀ fuel', (fuel ≤ fuel')%nat →
    entry_form (render fuel' h) cur = Normal str.
Proof.
  destruct cur as [value type|l op r].
  - intros H. exists O. intros fuel' _. by apply (form_entry_text h).
  - intros (s1 & s2 & [f1 H1]%renders_render & [f2 H2]%renders_render & ->).
    exists (f1 `max` f2)%nat. intros fuel' Hle. simpl.
    rewrite (render_mono f1 fuel' _ _ _ ltac:(lia) H1).
    by rewrite (render_mono f2 fuel' _ _ _ ltac:(lia) H2).
Qed.

Lemma entries_text_form h array strs :
  Forall2 (entry_text h) array strs →
  ∃ fuel, ∀ fuel', (fuel ≤ fuel')%nat →
    Forall2 (λ cur str, entry_form (render fuel' h) cur = Normal str) array strs.
Proof.
  induction 1 as [|cur str array strs H _ [f2 IH]].
  - exists O. constructor.
  - destruct (entry_text_form _ _ _ H) as [f1 H1].
    exists (f1 `max` f2)%nat. intros fuel' Hle.
    constructor; [apply H1|apply IH]; lia.
Qed.

Lemma renders_entries h this s :
  renders h this s
  ↔ ∃ o strs, h !! this = Some o
              ∧ Forall2 (entry_text h) (selectors o) strs ∧ s = join strs.
Proof.
  rewrite renders_render. split.
  - intros [[|fuel] H]; [done|]. simpl in H.
    destruct (h !! this) as [o|]; [|done].
    apply append_forms_join in H as (strs & HF & ->).
    exists o, strs. split_and!; [done| |done].
    eapply Forall2_impl; [exact HF|]. intros cur str. apply entry_form_text.
  - intros (o & strs & Ho & HF & ->).
    destruct (entries_text_form _ _ _ HF) as [fuel Hfuel].
    exists (S fuel). simpl. rewrite Ho.
    apply append_forms_join. exists strs. split; [|done].
    by apply Hfuel.
Qed.

(** *** Invariants *)

Lemma indexOf_ge t : -1 ≤ indexOf Selector_prototype.sortSelectors t.
Proof. by destruct t. Qed.

Lemma out_of_order_false value vs :
  out_of_order value vs = false
  ↔ ∀ val, val ∈ vs →
      indexOf Selector_prototype.sortSelectors val
      ≤ indexOf Selector_prototype.sortSelectors value.
Proof.
  unfold out_of_order. induction vs as [|v vs IH]; simpl.
  - split; [|done]. intros _ val H. by apply elem_of_nil in H.
  - rewrite orb_false_iff, IH, Z.gtb_ltb, Z.ltb_ge. split.
    + intros [Hv Hvs] val [->|H]%elem_of_cons; auto.
    + intros H. split; [|intros val Hval]; apply H; by constructor.
Qed.

Lemma selectors_refresh o : selectors (refresh o) = selectors o.
Proof. unfold refresh. by destruct (validSort o). Qed.

Lemma types_refresh o : types (refresh o) = types o.
Proof. unfold types. by rewrite selectors_refresh. Qed.

Lemma refresh_refresh o : refresh (refresh o) = refresh o.
Proof.
  unfold refresh, types. destruct (validSort o) as [|v vs] eqn:E; simpl.
  - by destruct (type_of <$> selectors o).
  - by rewrite E.
Qed.

Lemma cache_refresh o : cache (refresh o) = cache o.
Proof. unfold cache. by rewrite refresh_refresh. Qed.

Lemma types_pushed o value : types (pushed o value) = types o ++ [type_of value].
Proof. unfold types, pushed. simpl. by rewrite fmap_app. Qed.

Lemma cache_pushed o value val :
  val ∈ cache (pushed o value) →
  val ∈ cache o ∨ (validSort o = [] ∧ val = type_of value).
Proof.
  unfold cache, refresh. simpl. destruct (validSort o); simpl; [|by left].
  rewrite types_pushed. intros [H| ->%list_elem_of_singleton]%elem_of_app; auto.
Qed.

Lemma validSort_refresh_nil o : validSort (refresh o) = [] → types o = [].
Proof.
  unfold refresh. destruct (validSort o) eqn:E; simpl; [done|congruence].
Qed.

Lemma cache_below_refresh o : cache_below o → cache_below (refresh o).
Proof.
  unfold cache_below. rewrite cache_refresh, types_refresh. auto.
Qed.

Lemma validated_not_combine c :
  validated c = true → type_of (entry_of c) ≠ Combine.
Proof. by destruct c. Qed.

Lemma step_cache_below c o : cache_below o → cache_below (step c o).2.
Proof.
  intros Inv. unfold step.
  destruct (validated c) eqn:Hv; simpl.
  - destruct (out_of_order _ _) eqn:Hord; simpl;
      [by apply cache_below_refresh|].
    destruct (guarded c && _); simpl; [by apply cache_below_refresh|].
    intros val t Hval Ht Hne.
    rewrite types_pushed, types_refresh in Ht.
    apply cache_pushed in Hval as [Hval|[Hnil ->]].
    + rewrite cache_refresh in Hval.
      apply elem_of_app in Ht as [Ht| ->%list_elem_of_singleton].
      * by apply Inv.
      * by apply (proj1 (out_of_order_false _ _) Hord).
    + apply validSort_refresh_nil in Hnil. rewrite Hnil in Ht.
      apply list_elem_of_singleton in Ht as ->. lia.
  - destruct (guarded c && _); simpl; [done|].
    intros val t Hval Ht Hne. rewrite types_pushed in Ht.
    assert (Hc : type_of (entry_of c) = Combine) by (by destruct c).
    rewrite Hc in Ht.
    apply elem_of_app in Ht as [Ht| ->%list_elem_of_singleton]; [|done].
    apply cache_pushed in Hval as [Hval|[_ ->]]; [by apply Inv|].
    rewrite Hc. apply indexOf_ge.
Qed.

Lemma occurrences_refresh t o : occurrences t (refresh o) = occurrences t o.
Proof. unfold occurrences. by rewrite types_refresh. Qed.

Lemma occurrences_pushed t o value :
  occurrences t (pushed o value)
  = (occurrences t o + if decide (type_of value = t) then 1 else 0)%nat.
Proof.
  unfold occurrences. rewrite types_pushed, count_occ_app. simpl.
  destruct (tag_eq_dec _ _), (decide _); done.
Qed.

Lemma occurrences_absent t o : t ∉ types o → occurrences t o = 0%nat.
Proof.
  intros H. apply count_occ_not_In. by rewrite <- list_elem_of_In.
Qed.

Lemma step_single c o : single o → single (step c o).2.
Proof.
  intros Inv. unfold step.
  set (o1 := if validated c then refresh o else o).
  assert (Ho1 : ∀ t, occurrences t o1 = occurrences t o).
  { intros t. unfold o1. destruct (validated c); [|done].
    apply occurrences_refresh. }
  destruct (validated c && _); simpl; [intros t Ht; rewrite Ho1; auto|].
  destruct (guarded c) eqn:Hg; simpl.
  - destruct (Selector_prototype.include _ _) eqn:Hin; simpl;
      [intros t Ht; rewrite Ho1; auto|].
    intros t Ht. rewrite occurrences_pushed.
    destruct (decide _) as [<-|_]; [|rewrite Ho1; specialize (Inv t Ht); lia].
    rewrite occurrences_absent; [lia|].
    intros H%include_elem_of. congruence.
  - intros t Ht. rewrite occurrences_pushed.
    destruct (decide _) as [<-|_]; [unfold guarded in Hg; congruence|].
    rewrite Ho1. specialize (Inv t Ht). lia.
Qed.

Lemma new_Selector_spec h :
  new_Selector h = (Normal (length h), h ++ [{| selectors := []; validSort := [] |}]).
Proof. done. Qed.

(** A property of the new object that every call preserves holds of every
    object of a constructed heap. *)
Lemma built_objects (P : Selector → Prop) :
  P empty_Selector → (∀ c o, P o → P (step c o).2) →
  ∀ h, built h → ∀ this o, h !! this = Some o → P o.
Proof.
  intros Hnew Hstep h.
  induction 1 as [|h _ IH|h this0 c _ IH]; intros this o.
  - done.
  - simpl. intros [Ho|[_ Ho]]%lookup_app_Some; [by eapply IH|].
    by apply list_lookup_singleton_Some in Ho as [_ <-].
  - destruct (h !! this0) as [o0|] eqn:E0.
    + rewrite (invoke_step _ _ _ _ E0). simpl.
      destruct (decide (this0 = this)) as [->|Hne].
      * rewrite list_lookup_insert_eq by (by eapply lookup_lt_Some).
        intros [= <-]. eapply Hstep, IH, E0.
      * rewrite list_lookup_insert_ne by done. apply IH.
    + rewrite (invoke_none _ _ _ E0). apply IH.
Qed.

Lemma built_invariants h :
  built h → ∀ this o, h !! this = Some o → cache_below o ∧ single o.
Proof.
  apply (built_objects (λ o, cache_below o ∧ single o)).
  - split.
    + intros val t H. by apply elem_of_nil in H.
    + intros t _. unfold occurrences. simpl. lia.
  - intros c o [H1 H2]. split; [by apply step_cache_below|by apply step_single].
Qed.

(** A token call whose type is already among the entries of a constructed
    object passes [validate]: it then fails in [tryPush] when the type is
    guarded, and pushes otherwise. *)
Lemma step_repeated c o :
  cache_below o → validated c = true → type_of (entry_of c) ∈ types o →
  step c o = if guarded c
             then (Throw (Error duplicate_message), refresh o)
             else (Normal tt, pushed (refresh o) (entry_of c)).
Proof.
  intros Inv Hv Hin. unfold step. rewrite Hv. simpl.
  assert (Hord : out_of_order (type_of (entry_of c)) (validSort (refresh o)) = false).
  { apply out_of_order_false. intros val Hval.
    apply Inv; [done|done|by apply validated_not_combine]. }
  rewrite Hord.
  assert (Hinc : Selector_prototype.include (entry_of c) (selectors (refresh o)) = true).
  { apply include_elem_of. by rewrite selectors_refresh. }
  rewrite Hinc. by destruct (guarded c).
Qed.

Lemma invoke_repeated h this o c :
  built h → h !! this = Some o →
  validated c = true → type_of (entry_of c) ∈ types o →
  invoke this c h
  = if guarded c
    then (Throw (Error duplicate_message), <[this := refresh o]> h)
    else (Normal this, <[this := pushed (refresh o) (entry_of c)]> h).
Proof.
  intros Hb Ho Hv Hin. rewrite (invoke_step _ _ _ _ Ho).
  destruct (built_invariants _ Hb _ _ Ho) as [Inv _].
  rewrite (step_repeated _ _ Inv Hv Hin). by destruct (guarded c).
Qed.

(** *** [render] looks only at the entries of reachable objects *)

Lemma append_forms_ext f g array prev :
  (∀ cur, cur ∈ array → f cur = g cur) →
  append_forms f array prev = append_forms g array prev.
Proof.
  revert prev. induction array as [|cur rest IH]; intros prev Hfg; [done|].
  simpl. rewrite <- (Hfg cur) by apply list_elem_of_here.
  destruct (f cur); [|done]. apply IH. intros c Hc.
  by apply Hfg, list_elem_of_further.
Qed.

Lemma render_ext fuel (h h' : heap) a :
  (∀ b, reach h a b → selectors <$> h' !! b = selectors <$> h !! b) →
  render fuel h' a = render fuel h a.
Proof.
  revert a. induction fuel as [|fuel IH]; intros a Hsame; [done|].
  simpl. pose proof (Hsame a (reach_here h a)) as Ha.
  destruct (h !! a) as [o|] eqn:Eo, (h' !! a) as [o'|]; simplify_eq/=; [|done].
  rewrite Ha. apply append_forms_ext. intros [value type|l op r] Hin; [done|].
  simpl. rewrite (IH l), (IH r); [done|..];
    intros b Hb; apply Hsame; [by eapply reach_selector2|by eapply reach_selector1].
Qed.

Lemma render_same_selectors fuel (h h' : heap) a :
  selectors <$> h' = selectors <$> h → render fuel h' a = render fuel h a.
Proof.
  intros E. apply render_ext. intros b _.
  by rewrite <- !list_lookup_fmap, E.
Qed.

(** A call changes the entries of an object only by a push that succeeds. *)
Lemma selectors_step c o :
  selectors (step c o).2
  = match (step c o).1 with
    | Normal _ => selectors o ++ [entry_of c]
    | Throw _ => selectors o
    end.
Proof.
  unfold step.
  assert (E : selectors (if validated c then refresh o else o) = selectors o).
  { destruct (validated c); [apply selectors_refresh|done]. }
  destruct (validated c && _); simpl; [done|].
  destruct (guarded c && _); simpl; by rewrite E.
Qed.

Lemma selectors_insert_same (h : heap) this o o' :
  h !! this = Some o → selectors o' = selectors o →
  selectors <$> <[this := o']> h = selectors <$> h.
Proof.
  intros Ho E. rewrite list_fmap_insert, E. apply list_insert_id.
  by rewrite list_lookup_fmap, Ho.
Qed.

(** *** The facade *)

Lemma facade_step c h :
  (this <- new_Selector ;; invoke this c) h
  = (match (step c empty_Selector).1 with
     | Normal _ => Normal (length h)
     | Throw e => Throw e
     end, h ++ [(step c empty_Selector).2]).
Proof.
  unfold bind. rewrite new_Selector_spec.
  assert (Ho : (h ++ [empty_Selector]) !! length h = Some empty_Selector)
    by apply list_lookup_middle, eq_refl.
  rewrite (invoke_step _ _ _ _ Ho). f_equal.
  replace (length h) with (length h + 0)%nat at 1 by lia.
  by rewrite insert_app_r.
Qed.

(** *** Calls and the objects they do not touch *)

Lemma invoke_heap this c h : ∃ o', (invoke this c h).2 = <[this := o']> h.
Proof.
  destruct (h !! this) as [o|] eqn:Ho.
  - rewrite (invoke_step _ _ _ _ Ho). by eexists.
  - rewrite (invoke_none _ _ _ Ho). exists empty_Selector. simpl.
    symmetry. apply list_insert_ge. by apply lookup_ge_None.
Qed.

Lemma render_insert_unreachable fuel (h : heap) this o' a :
  ¬ reach h a this → render fuel (<[this := o']> h) a = render fuel h a.
Proof.
  intros Hn. apply render_ext. intros b Hb.
  rewrite list_lookup_insert_ne; [done|]. by intros ->.
Qed.

Lemma reach_without_combinator (h : heap) a b o :
  h !! a = Some o → (∀ l op r, Combined l op r ∉ selectors o) →
  reach h a b → a = b.
Proof.
  intros Ho Hno. inversion 1; simplify_eq; [done|by destruct (Hno l op r)..].
Qed.

(** *** [stringify] returns on heaps without cycles *)

Lemma step_well_typed c o : well_typed o → well_typed (step c o).2.
Proof.
  intros Ho value. rewrite selectors_step.
  destruct (step c o).1; [|apply Ho].
  intros [H|H%list_elem_of_singleton]%elem_of_app; [by apply Ho in H|].
  by destruct c.
Qed.

Lemma built_well_typed h :
  built h → ∀ this o, h !! this = Some o → well_typed o.
Proof.
  apply (built_objects well_typed); [|apply step_well_typed].
  intros value H. by apply elem_of_nil in H.
Qed.

Lemma append_forms_total f array prev :
  (∀ cur, cur ∈ array → ∃ str, f cur = Normal str) →
  ∃ s, append_forms f array prev = Normal s.
Proof.
  revert prev. induction array as [|cur rest IH]; intros prev Hf; simpl.
  - by eexists.
  - destruct (Hf cur) as [str ->]; [apply list_elem_of_here|].
    apply IH. intros c Hc. by apply Hf, list_elem_of_further.
Qed.

Lemma render_total (h : heap) rank :
  (∀ a o, h !! a = Some o → well_typed o) → ranked h rank →
  ∀ fuel a, (rank a < fuel)%nat → is_Some (h !! a) →
    ∃ s, render fuel h a = Normal s.
Proof.
  intros Hwt Hrk. induction fuel as [|fuel IH]; intros a Hlt [o Ho]; [lia|].
  simpl. rewrite Ho. apply append_forms_total.
  intros [value type|l op r] Hin; simpl.
  - destruct type; try by eexists. by destruct (Hwt _ _ Ho value).
  - destruct (Hrk _ _ _ _ _ Ho Hin) as (Hl & Hr & Hrl & Hrr).
    destruct (IH l) as [s1 ->]; [lia|done|].
    destruct (IH r) as [s2 ->]; [lia|done|]. by eexists.
Qed.

(** *** Cycles, and the facade's [combine] *)

Lemma append_forms_throws f array prev cur :
  cur ∈ array → (∃ e, f cur = Throw e) → ∃ e, append_forms f array prev = Throw e.
Proof.
  revert prev. induction array as [|c rest IH]; intros prev Hin [e He].
  - by apply elem_of_nil in Hin.
  - simpl. apply elem_of_cons in Hin as [<-|Hin].
    + rewrite He. by eexists.
    + destruct (f c); [|by eexists]. apply IH; eauto.
Qed.

(** A builder that is an operand of one of its own combinator entries never
    renders: [stringify] throws at every depth. *)
Lemma self_operand_never_renders (h : heap) this o l op r :
  h !! this = Some o → Combined l op r ∈ selectors o → l = this ∨ r = this →
  ∀ fuel, ∃ e, render fuel h this = Throw e.
Proof.
  intros Ho Hin Hself. induction fuel as [|fuel [e IH]]; [by eexists|].
  simpl. rewrite Ho. eapply append_forms_throws; [exact Hin|]. simpl.
  destruct Hself as [-> | ->].
  - rewrite IH. by eexists.
  - destruct (render fuel h l); [|by eexists]. rewrite IH. by eexists.
Qed.

Lemma reach_closed (h : heap) a b :
  closed h → reach h a b → (a < length h)%nat → (b < length h)%nat.
Proof.
  intros Hc. induction 1 as [a|a o l op r b Ho Hin _ IH|a o l op r b Ho Hin _ IH];
    [done|..]; intros _; apply IH; by destruct (Hc _ _ _ _ _ Ho Hin).
Qed.

(** The facade's [combine] allocates its holder, so no existing builder
    reaches it: every existing builder renders as before. *)
Lemma facade_combine_frames (h : heap) selector1 combinator selector2 a fuel :
  closed h → (a < length h)%nat →
  let h1 := (cssSelectorBuilder.combine selector1 combinator selector2 h).2 in
  h1 !! a = h !! a
  ∧ (Selector_prototype.stringify fuel a h1).1
    = (Selector_prototype.stringify fuel a h).1.
Proof.
  intros Hc Ha h1.
  assert (E : h1 = h ++ [(step (call_combine selector1 combinator selector2)
                            empty_Selector).2]).
  { unfold h1.
    change (cssSelectorBuilder.combine selector1 combinator selector2)
      with (this <- new_Selector ;;
            invoke this (call_combine selector1 combinator selector2)).
    by rewrite facade_step. }
  rewrite E. split; [by apply lookup_app_l|].
  rewrite !stringify_render. simpl. apply render_ext.
  intros b Hb. rewrite lookup_app_l; [done|]. by eapply reach_closed.
Qed.

(** ** The claims *)

(** C7. For numbers [w], [h] that are at least zero, [new Rectangle(w, h)]
    has field [width] equal to [w], field [height] equal to [h], and
    [getArea()] returns the product [w * h]. *)
Theorem C7_rectangle_fields_and_area (w h : float) :
  PrimFloat.leb 0 w = true → PrimFloat.leb 0 h = true →
  let r := new_Rectangle w h in
  width r = w ∧ height r = h ∧ getArea r = PrimFloat.mul w h.
Proof. intros _ _. by cbn. Qed.

(** The documented example: [new Rectangle(10, 20)] has area [200]. *)
Lemma C7_rectangle_10_20 :
  PrimFloat.leb 0 10 = true ∧ PrimFloat.leb 0 20 = true
  ∧ width (new_Rectangle 10 20) = 10%float
  ∧ height (new_Rectangle 10 20) = 20%float
  ∧ getArea (new_Rectangle 10 20) = 200%float.
Proof.
  split; [reflexivity|]. split; [reflexivity|].
  apply (C7_rectangle_fields_and_area 10 20); reflexivity.
Defined.

(** C1 (the code departs from it). [validate] fills [validSort] once, from
    the entries present at the first call that finds any, and never again:
    types pushed later are not checked against.  On a fresh builder
    [element('a').pseudoClass('b').class('c')] returns normally although
    ['class'] ranks below ['pseudoClass'], and the builder holds the three
    entries in that order and renders ['a:b.c'].  In general no call changes
    a [validSort] that is not empty. *)
Theorem C1_validSort_filled_once_misses_later_entries :
  indexOf Selector_prototype.sortSelectors Class
  < indexOf Selector_prototype.sortSelectors PseudoClass
  ∧ (b <- cssSelectorBuilder.element "a" ;;
     b <- Selector_prototype.pseudoClass b "b" ;;
     Selector_prototype.class b "c") []
    = (Normal 0%nat,
       [{| selectors := [Simple "a" Element; Simple "b" PseudoClass;
                         Simple "c" Class];
           validSort := [Element] |}])
  ∧ ((b <- cssSelectorBuilder.element "a" ;;
     b <- Selector_prototype.pseudoClass b "b" ;;
     b <- Selector_prototype.class b "c" ;;
     Selector_prototype.stringify 1 b) []).1 = Normal "a:b.c"
  ∧ (∀ (h : heap) this o c,
       h !! this = Some o → validSort o ≠ [] →
       validSort <$> (invoke this c h).2 !! this = Some (validSort o)).
Proof.
  split_and!; try reflexivity.
  intros h this o c Ho Hne. rewrite (invoke_step _ _ _ _ Ho). simpl.
  rewrite list_lookup_insert_eq by (by eapply lookup_lt_Some). simpl. f_equal.
  unfold step, refresh. destruct (validSort o) as [|v vs] eqn:E; [done|].
  replace (if validated c then o else o) with o by (by destruct (validated c)).
  destruct (validated c && _); simpl; [done|].
  by destruct (guarded c && _).
Qed.

(** C2. On a constructed builder that already holds an entry of type
    element, id or pseudo-element, calling the method of that type throws
    the duplicate error (and leaves the entries as they were); one that
    already holds a class, attribute or pseudo-class entry accepts a further
    call of that method, which appends its entry.  In particular
    [id('a').id('b')] throws the duplicate error and
    [class('a').class('b')] renders ['.a.b']. *)
Theorem C2_duplicates_rejected_for_guarded_types h this o value :
  built h → h !! this = Some o →
  (Element ∈ types o →
     Selector_prototype.element this value h
     = (Throw (Error duplicate_message), <[this := refresh o]> h))
  ∧ (Id ∈ types o →
     Selector_prototype.id this value h
     = (Throw (Error duplicate_message), <[this := refresh o]> h))
  ∧ (PseudoElement ∈ types o →
     Selector_prototype.pseudoElement this value h
     = (Throw (Error duplicate_message), <[this := refresh o]> h))
  ∧ (Class ∈ types o →
     Selector_prototype.class this value h
     = (Normal this, <[this := pushed (refresh o) (Simple value Class)]> h))
  ∧ (Attr ∈ types o →
     Selector_prototype.attr this value h
     = (Normal this, <[this := pushed (refresh o) (Simple value Attr)]> h))
  ∧ (PseudoClass ∈ types o →
     Selector_prototype.pseudoClass this value h
     = (Normal this,
        <[this := pushed (refresh o) (Simple value PseudoClass)]> h))
  ∧ selectors (refresh o) = selectors o
  ∧ ((b <- cssSelectorBuilder.id "a" ;; Selector_prototype.id b "b") []).1
    = Throw (Error duplicate_message)
  ∧ ((b <- cssSelectorBuilder.class "a" ;;
     b <- Selector_prototype.class b "b" ;;
     Selector_prototype.stringify 1 b) []).1 = Normal ".a.b".
Proof.
  intros Hb Ho. split_and!; try reflexivity; try apply selectors_refresh.
  - apply (invoke_repeated h this o (call_element value)); done.
  - apply (invoke_repeated h this o (call_id value)); done.
  - apply (invoke_repeated h this o (call_pseudoElement value)); done.
  - apply (invoke_repeated h this o (call_class value)); done.
  - apply (invoke_repeated h this o (call_attr value)); done.
  - apply (invoke_repeated h this o (call_pseudoClass value)); done.
Qed.

(** On [element('div').class('x')] a second [element] is a duplicate and a
    second [class] is appended. *)
Lemma C2_element_twice :
  let h := ((b <- cssSelectorBuilder.element "div" ;;
            Selector_prototype.class b "x") []).2 in
  let o := {| selectors := [Simple "div" Element; Simple "x" Class];
              validSort := [Element] |} in
  built h ∧ h !! 0%nat = Some o
  ∧ Selector_prototype.element 0 "p" h
    = (Throw (Error duplicate_message), <[0%nat := refresh o]> h)
  ∧ Selector_prototype.class 0 "y" h
    = (Normal 0%nat, <[0%nat := pushed (refresh o) (Simple "y" Class)]> h).
Proof.
  intros h o.
  assert (Hb : built h).
  { exact (built_invoke _ 0%nat (call_class "x")
             (built_invoke _ 0%nat (call_element "div")
                (built_new _ built_empty))). }
  assert (Ho : h !! 0%nat = Some o) by reflexivity.
  pose proof (C2_duplicates_rejected_for_guarded_types h 0%nat o "p" Hb Ho)
    as (He & _).
  pose proof (C2_duplicates_rejected_for_guarded_types h 0%nat o "y" Hb Ho)
    as (_ & _ & _ & Hc & _).
  split_and!; [done|done|apply He|apply Hc].
  - apply list_elem_of_here.
  - apply list_elem_of_further, list_elem_of_here.
Defined.

(** C3. [stringify] returns the concatenation, in sequence order and with
    nothing in between, of the texts of the entries: the token for element,
    [#token] for id, [.token] for class, [[token]] for attribute, [:token]
    for pseudo-class, [::token] for pseudo-element, and for a combinator
    entry the string of its left operand, a space, the operator, a space
    and the string of its right operand.  The two examples of the
    specification render ['elem#id.cls[attr]:pc::pe'] and
    ['div#main + table'].  On a constructed heap without cycles [stringify]
    returns a string for every builder. *)
Theorem C3_stringify_concatenates_entry_texts :
  (∀ h this s,
     renders h this s
     ↔ ∃ o strs, h !! this = Some o
                 ∧ Forall2 (entry_text h) (selectors o) strs ∧ s = join strs)
  ∧ (∀ fuel,
       ((b <- cssSelectorBuilder.element "elem" ;;
         b <- Selector_prototype.id b "id" ;;
         b <- Selector_prototype.class b "cls" ;;
         b <- Selector_prototype.attr b "attr" ;;
         b <- Selector_prototype.pseudoClass b "pc" ;;
         b <- Selector_prototype.pseudoElement b "pe" ;;
         Selector_prototype.stringify (S fuel) b) []).1
       = Normal "elem#id.cls[attr]:pc::pe")
  ∧ (∀ fuel,
       ((left <- (b <- cssSelectorBuilder.element "div" ;;
                  Selector_prototype.id b "main") ;;
         right <- cssSelectorBuilder.element "table" ;;
         b <- cssSelectorBuilder.combine left "+" right ;;
         Selector_prototype.stringify (S (S fuel)) b) []).1
       = Normal "div#main + table")
  ∧ (∀ h rank this,
       built h → ranked h rank → is_Some (h !! this) →
       ∃ s, Selector_prototype.stringify (S (rank this)) this h = (Normal s, h)).
Proof.
  split_and!.
  - apply renders_entries.
  - intros fuel. cbv -[Selector_prototype.stringify].
    rewrite stringify_render. apply (render_mono 1); [lia|reflexivity].
  - intros fuel. cbv -[Selector_prototype.stringify].
    rewrite stringify_render. apply (render_mono 2); [lia|reflexivity].
  - intros h rank this Hb Hrk Hthis.
    destruct (render_total h rank (built_well_typed h Hb) Hrk
                (S (rank this)) this) as [s Hs]; [lia|done|].
    exists s. by rewrite stringify_render, Hs.
Qed.

(** The heap of the combinator example is constructed and has no cycle
    (addresses decrease from holder to operand), so [stringify] returns. *)
Lemma C3_combinator_example_returns :
  let h := ((left <- (b <- cssSelectorBuilder.element "div" ;;
                      Selector_prototype.id b "main") ;;
             right <- cssSelectorBuilder.element "table" ;;
             cssSelectorBuilder.combine left "+" right) []).2 in
  built h ∧ ranked h (λ a, a)
  ∧ ∃ s, Selector_prototype.stringify 3 2 h = (Normal s, h).
Proof.
  intros h.
  assert (Hb : built h).
  { exact (built_invoke _ 2%nat (call_combine 0 "+" 1)
             (built_new _
                (built_invoke _ 1%nat (call_element "table")
                   (built_new _
                      (built_invoke _ 0%nat (call_id "main")
                         (built_invoke _ 0%nat (call_element "div")
                            (built_new _ built_empty))))))). }
  assert (Hr : ranked h (λ a, a)).
  { intros a o l op r Ho Hin.
    destruct a as [|[|[|a]]]; simplify_eq/=;
      repeat (apply elem_of_cons in Hin as [Hin|Hin]; simplify_eq/=);
      try (by apply elem_of_nil in Hin).
    split_and!; [by eexists|by eexists|lia|lia]. }
  split_and!; [exact Hb|exact Hr|].
  destruct C3_stringify_concatenates_entry_texts as (_ & _ & _ & Htotal).
  apply (Htotal h (λ a, a) 2%nat Hb Hr). by eexists.
Defined.

(** C4. [stringify] only reads: the heap after a call is the heap before
    it, a second call right after the first completes as the first did, and
    when both return their strings are equal. *)
Theorem C4_stringify_is_a_pure_read fuel this h :
  let r := Selector_prototype.stringify fuel this h in
  r.2 = h
  ∧ Selector_prototype.stringify fuel this r.2 = r
  ∧ match (s1 <- Selector_prototype.stringify fuel this ;;
           s2 <- Selector_prototype.stringify fuel this ;;
           ret (s1, s2)) h with
    | (Normal (s1, s2), h') => s1 = s2 ∧ r = (Normal s1, h) ∧ h' = h
    | (Throw e, h') => r = (Throw e, h) ∧ h' = h
    end.
Proof.
  simpl. unfold bind. rewrite !stringify_render. simpl.
  split_and!; [done|done|].
  by destruct (render fuel h this) as [s|e].
Qed.

(** C5. When one of the seven calls throws, every builder holds the entries
    it held before the call, and [stringify] on any builder completes as it
    would have before the call. *)
Theorem C5_failed_call_keeps_entries h this c e h' :
  invoke this c h = (Throw e, h') →
  selectors <$> h' = selectors <$> h
  ∧ ∀ fuel b, (Selector_prototype.stringify fuel b h').1
              = (Selector_prototype.stringify fuel b h).1.
Proof.
  intros H.
  assert (E : selectors <$> h' = selectors <$> h).
  { destruct (h !! this) as [o|] eqn:Ho.
    - rewrite (invoke_step _ _ _ _ Ho) in H.
      pose proof (selectors_step c o) as Hs.
      destruct (step c o).1; simplify_eq/=.
      by apply selectors_insert_same with o.
    - rewrite (invoke_none _ _ _ Ho) in H. by simplify_eq. }
  split; [done|]. intros fuel b. rewrite !stringify_render. simpl.
  by apply render_same_selectors.
Qed.

(** [class('a').element('x')] throws the order error; the call filled
    [validSort] but the entries are those of [class('a')]. *)
Lemma C5_element_after_class :
  let h := (cssSelectorBuilder.class "a" []).2 in
  let h' := [{| selectors := [Simple "a" Class]; validSort := [Class] |}] in
  invoke 0 (call_element "x") h = (Throw (Error order_message), h')
  ∧ selectors <$> h' = selectors <$> h
  ∧ (Selector_prototype.stringify 1 0 h').1
    = (Selector_prototype.stringify 1 0 h).1.
Proof.
  intros h h'.
  assert (H : invoke 0 (call_element "x") h = (Throw (Error order_message), h'))
    by reflexivity.
  destruct (C5_failed_call_keeps_entries h 0%nat (call_element "x") _ h' H)
    as [E1 E2].
  split_and!; [exact H|exact E1|exact (E2 1%nat 0%nat)].
Defined.

(** C8. Each entry point of the facade allocates a new object, at an
    address no object had, leaves every existing object as it was, and the
    new object holds exactly the one entry of the matching type; each of the
    seven methods, when it returns, returns the builder it was called on and
    changes no other object. *)
Theorem C8_facade_allocates_and_methods_return_this :
  (∀ h value,
     cssSelectorBuilder.element value h
     = (Normal (length h),
        h ++ [{| selectors := [Simple value Element]; validSort := [] |}])
     ∧ cssSelectorBuilder.id value h
       = (Normal (length h),
          h ++ [{| selectors := [Simple value Id]; validSort := [] |}])
     ∧ cssSelectorBuilder.class value h
       = (Normal (length h),
          h ++ [{| selectors := [Simple value Class]; validSort := [] |}])
     ∧ cssSelectorBuilder.attr value h
       = (Normal (length h),
          h ++ [{| selectors := [Simple value Attr]; validSort := [] |}])
     ∧ cssSelectorBuilder.pseudoClass value h
       = (Normal (length h),
          h ++ [{| selectors := [Simple value PseudoClass]; validSort := [] |}])
     ∧ cssSelectorBuilder.pseudoElement value h
       = (Normal (length h),
          h ++ [{| selectors := [Simple value PseudoElement];
                   validSort := [] |}]))
  ∧ (∀ h selector1 combinator selector2,
       cssSelectorBuilder.combine selector1 combinator selector2 h
       = (Normal (length h),
          h ++ [{| selectors := [Combined selector1 combinator selector2];
                   validSort := [] |}]))
  ∧ (∀ (h : heap) a, (length h ≤ a)%nat → h !! a = None)
  ∧ (∀ h this c r h',
       invoke this c h = (Normal r, h') →
       r = this ∧ length h' = length h
       ∧ ∀ a, a ≠ this → h' !! a = h !! a).
Proof.
  split_and!.
  - intros h value. split_and!.
    + apply (facade_step (call_element value)).
    + apply (facade_step (call_id value)).
    + apply (facade_step (call_class value)).
    + apply (facade_step (call_attr value)).
    + apply (facade_step (call_pseudoClass value)).
    + apply (facade_step (call_pseudoElement value)).
  - intros h l op r. apply (facade_step (call_combine l op r)).
  - intros h a. apply lookup_ge_None_2.
  - intros h this c r h' H.
    destruct (h !! this) as [o|] eqn:Ho.
    + rewrite (invoke_step _ _ _ _ Ho) in H.
      destruct (step c o).1; simplify_eq/=.
      split_and!; [done|apply length_insert|].
      intros b Hb. by apply list_lookup_insert_ne.
    + rewrite (invoke_none _ _ _ Ho) in H. by simplify_eq.
Qed.

(** [id('main').class('container')]: the second call returns the builder of
    the first and updates it in place. *)
Lemma C8_chained_calls_on_one_instance :
  let h := (cssSelectorBuilder.id "main" []).2 in
  let h' := [{| selectors := [Simple "main" Id; Simple "container" Class];
                validSort := [Id] |}] in
  invoke 0 (call_class "container") h = (Normal 0%nat, h')
  ∧ length h' = length h
  ∧ h' !! 1%nat = h !! 1%nat.
Proof.
  intros h h'.
  assert (H : invoke 0 (call_class "container") h = (Normal 0%nat, h'))
    by reflexivity.
  destruct C8_facade_allocates_and_methods_return_this as (_ & _ & _ & Hm).
  destruct (Hm h 0%nat (call_class "container") 0%nat h' H) as (_ & Hl & Ha).
  split_and!; [exact H|exact Hl|apply Ha; lia].
Defined.

(** C10. [combine] on a builder that already holds a combinator entry throws
    the duplicate error and changes nothing; on a builder without one it
    appends the entry whatever its three arguments, the other entries and
    [validSort] are.  So a constructed builder holds at most one combinator
    entry. *)
Theorem C10_second_combine_is_a_duplicate h this o selector1 combinator selector2 :
  h !! this = Some o →
  (Combine ∈ types o →
     Selector_prototype.combine this selector1 combinator selector2 h
     = (Throw (Error duplicate_message), h))
  ∧ (Combine ∉ types o →
     Selector_prototype.combine this selector1 combinator selector2 h
     = (Normal this,
        <[this := pushed o (Combined selector1 combinator selector2)]> h))
  ∧ (built h → (occurrences Combine o ≤ 1)%nat).
Proof.
  intros Ho.
  pose proof (invoke_step this (call_combine selector1 combinator selector2)
                h o Ho) as H.
  unfold step in H. simpl in H. split_and!.
  - intros Hin. rewrite H.
    rewrite (proj2 (include_elem_of (Combined selector1 combinator selector2) _) Hin).
    simpl. by rewrite (write_same _ _ _ Ho).
  - intros Hin. rewrite H.
    destruct (Selector_prototype.include _ _) eqn:E; [|done].
    by apply include_elem_of in E.
  - intros Hb. destruct (built_invariants _ Hb _ _ Ho) as [_ Hs]. by apply Hs.
Qed.

(** A second [combine] on the builder made by the facade's [combine]. *)
Lemma C10_combine_twice :
  let h := (cssSelectorBuilder.combine 0 "+" 0
              (cssSelectorBuilder.element "a" []).2).2 in
  let o := {| selectors := [Combined 0 "+" 0]; validSort := [] |} in
  h !! 1%nat = Some o
  ∧ Selector_prototype.combine 1 0 "~" 0 h = (Throw (Error duplicate_message), h).
Proof.
  intros h o.
  assert (Ho : h !! 1%nat = Some o) by reflexivity.
  split; [exact Ho|].
  apply (C10_second_combine_is_a_duplicate h 1%nat o 0%nat "~" 0%nat Ho).
  apply list_elem_of_here.
Defined.

(** C9, as the code has it.  [combine] stores the two operands by reference
    and writes only to the builder it is called on.  When that builder is
    neither [left] nor [right], both operands are afterwards the objects they
    were, also after a later [stringify] of the holder; when moreover the
    holder is not reachable from an operand through combinator entries,
    [stringify] on that operand completes as it did before the call. *)
Theorem C9_combine_keeps_distinct_operands h this left op right fuel :
  this ≠ left → this ≠ right →
  let h1 := (Selector_prototype.combine this left op right h).2 in
  let h2 := (Selector_prototype.stringify fuel this h1).2 in
  h2 = h1
  ∧ h1 !! left = h !! left
  ∧ h1 !! right = h !! right
  ∧ (¬ reach h left this →
     ∀ fuel', (Selector_prototype.stringify fuel' left h2).1
              = (Selector_prototype.stringify fuel' left h).1)
  ∧ (¬ reach h right this →
     ∀ fuel', (Selector_prototype.stringify fuel' right h2).1
              = (Selector_prototype.stringify fuel' right h).1).
Proof.
  intros Hl Hr h1 h2.
  assert (E2 : h2 = h1) by (unfold h2; by rewrite stringify_render).
  destruct (invoke_heap this (call_combine left op right) h) as [o' E1].
  change (h1 = <[this := o']> h) in E1.
  rewrite E2, E1. split_and!; [done|by apply list_lookup_insert_ne..| |];
    intros Hn fuel'; rewrite !stringify_render; simpl;
    by apply render_insert_unreachable.
Qed.

(** [combine] called on a third builder [id('x')] with the operands
    [element('div')] and [element('table')]. *)
Lemma C9_combine_on_a_third_builder :
  let h := ((_ <- cssSelectorBuilder.element "div" ;;
             _ <- cssSelectorBuilder.element "table" ;;
             cssSelectorBuilder.id "x") []).2 in
  let h1 := (Selector_prototype.combine 2 0 ">" 1 h).2 in
  (Selector_prototype.stringify 2 2 h1).2 = h1
  ∧ h1 !! 0%nat = h !! 0%nat
  ∧ h1 !! 1%nat = h !! 1%nat
  ∧ (Selector_prototype.stringify 1 0 h1).1
    = (Selector_prototype.stringify 1 0 h).1
  ∧ (Selector_prototype.stringify 1 1 h1).1
    = (Selector_prototype.stringify 1 1 h).1.
Proof.
  intros h h1.
  destruct (C9_combine_keeps_distinct_operands h 2%nat 0%nat ">" 1%nat 2%nat)
    as (E2 & E0 & E1 & S0 & S1); [lia|lia|].
  fold h1 in E2, E0, E1, S0, S1. split_and!; [exact E2|exact E0|exact E1| |].
  - rewrite <- E2. apply S0. intros H.
    apply (reach_without_combinator h 0%nat 2%nat
             {| selectors := [Simple "div" Element]; validSort := [] |})
      in H; [lia|reflexivity|].
    intros l op r Hin. apply list_elem_of_singleton in Hin. discriminate.
  - rewrite <- E2. apply S1. intros H.
    apply (reach_without_combinator h 1%nat 2%nat
             {| selectors := [Simple "table" Element]; validSort := [] |})
      in H; [lia|reflexivity|].
    intros l op r Hin. apply list_elem_of_singleton in Hin. discriminate.
Defined.

(** C9 as stated fails when an operand is the builder [combine] is called
    on, or holds it as an operand.  With [b = element('a')], after
    [b.combine(b, '+', b)] the entries of [b], the left operand, have
    changed and [b.stringify()] no longer returns ['a'].  With
    [l = combine(b, '+', b)], after [b.combine(l, '>', l)] the entries of
    [l] are the same but [l.stringify()] no longer returns ['a + a']. *)
Lemma C9_operand_aliases_the_holder :
  let h := (cssSelectorBuilder.element "a" []).2 in
  let h1 := (Selector_prototype.combine 0 0 "+" 0 h).2 in
  let g := (cssSelectorBuilder.combine 0 "+" 0 h).2 in
  let g1 := (Selector_prototype.combine 0 1 ">" 1 g).2 in
  selectors <$> h !! 0%nat = Some [Simple "a" Element]
  ∧ selectors <$> h1 !! 0%nat = Some [Simple "a" Element; Combined 0 "+" 0]
  ∧ (Selector_prototype.stringify 3 0 h).1 = Normal "a"
  ∧ (Selector_prototype.stringify 3 0 h1).1 = Throw RangeError
  ∧ selectors <$> g1 !! 1%nat = selectors <$> g !! 1%nat
  ∧ (Selector_prototype.stringify 3 1 g).1 = Normal "a + a"
  ∧ (Selector_prototype.stringify 3 1 g1).1 = Throw RangeError.
Proof. split_and!; reflexivity. Qed.

(** ** Further properties of the builder *)

(** *** What [validSort] holds *)

Lemma snapshot_refresh o : snapshot o → snapshot (refresh o).
Proof.
  unfold snapshot. rewrite types_refresh. unfold refresh.
  destruct (validSort o) eqn:E; simpl; [done|]. by rewrite E.
Qed.

Lemma step_snapshot c o : snapshot o → snapshot (step c o).2.
Proof.
  intros Ho. unfold step.
  set (o1 := if validated c then refresh o else o).
  assert (H1 : snapshot o1).
  { unfold o1. destruct (validated c); [by apply snapshot_refresh|done]. }
  destruct (validated c && _); simpl; [done|].
  destruct (guarded c && _); simpl; [done|].
  unfold snapshot. rewrite types_pushed. simpl. by apply prefix_app_r.
Qed.

Lemma cache_head o : snapshot o → head (cache o) = head (types o).
Proof.
  unfold snapshot, cache, refresh.
  destruct (validSort o) as [|v vs] eqn:E; simpl; [done|].
  rewrite E. intros [k ->]. done.
Qed.

Lemma first_only_refresh o : first_only o → first_only (refresh o).
Proof. unfold first_only. by rewrite cache_refresh, types_refresh. Qed.

Lemma first_only_pushed o value :
  first_only o →
  types o = [] ∨ type_of value = Combine ∨ validSort o ≠ [] →
  first_only (pushed o value).
Proof.
  intros Ho Hcase val Hval Hne. rewrite types_pushed.
  apply cache_pushed in Hval as [Hval|[Hnil ->]].
  - specialize (Ho val Hval Hne). by destruct (types o).
  - destruct Hcase as [-> |[?|?]]; done.
Qed.

Lemma step_first_only c o : first_only o → first_only (step c o).2.
Proof.
  intros Ho. unfold step. destruct (validated c) eqn:Hv; simpl.
  - destruct (out_of_order _ _); simpl; [by apply first_only_refresh|].
    destruct (guarded c && _); simpl; [by apply first_only_refresh|].
    apply first_only_pushed; [by apply first_only_refresh|].
    rewrite types_refresh. unfold refresh.
    destruct (validSort o) eqn:E; simpl; [|right; right; congruence].
    destruct (types o); [by left|by right; right].
  - destruct (guarded c && _); simpl; [done|].
    apply first_only_pushed; [done|]. right; left. by destruct c.
Qed.

Lemma built_cache h :
  built h → ∀ this o, h !! this = Some o → snapshot o ∧ first_only o.
Proof.
  apply (built_objects (λ o, snapshot o ∧ first_only o)).
  - split; [by exists []|]. intros val H. by apply elem_of_nil in H.
  - intros c o [H1 H2]. split; [by apply step_snapshot|by apply step_first_only].
Qed.

Lemma out_of_order_true value vs :
  out_of_order value vs = true
  ↔ ∃ val, val ∈ vs
           ∧ indexOf Selector_prototype.sortSelectors value
             < indexOf Selector_prototype.sortSelectors val.
Proof.
  unfold out_of_order. rewrite existsb_exists. split.
  - intros (val & Hin & Hgt). exists val. rewrite list_elem_of_In. split; [done|lia].
  - intros (val & Hin & Hlt). exists val. rewrite <- list_elem_of_In. split; [done|lia].
Qed.

(** On an object of a constructed heap the test of [validate] fails exactly
    when the first entry is a token entry that ranks above the new type. *)
Lemma out_of_order_first o value :
  snapshot o → first_only o →
  out_of_order value (validSort (refresh o)) = true
  ↔ ∃ v t0 rest, selectors o = Simple v t0 :: rest
                 ∧ indexOf Selector_prototype.sortSelectors value
                   < indexOf Selector_prototype.sortSelectors t0.
Proof.
  intros Hs Hf. rewrite out_of_order_true. fold (cache o). split.
  - intros (val & Hin & Hlt).
    assert (Hne : val ≠ Combine).
    { intros ->. pose proof (indexOf_ge value).
      change (indexOf Selector_prototype.sortSelectors Combine) with (-1) in Hlt.
      lia. }
    specialize (Hf val Hin Hne). unfold types in Hf.
    destruct (selectors o) as [|[v t0|l op r] rest]; simplify_eq/=.
    by eexists _, _, _.
  - intros (v & t0 & rest & E & Hlt). exists t0. split; [|done].
    pose proof (cache_head o Hs) as Hh. unfold types in Hh. rewrite E in Hh.
    simpl in Hh. destruct (cache o); simplify_eq/=. apply list_elem_of_here.
Qed.


Lemma id_class_heap_built : built id_class_heap.
Proof.
  exact (built_invoke _ 0%nat (call_class "container")
           (built_invoke _ 0%nat (call_id "main") (built_new _ built_empty))).
Qed.

Lemma id_class_heap_object : id_class_heap !! 0%nat = Some id_class_object.
Proof. reflexivity. Qed.

(** *** When a call throws, and what a call appends *)

(** X1. On a constructed builder a token method throws the order error
    exactly when the first entry of the builder is a token entry whose type
    ranks strictly above the type of the call: later entries, and a first
    entry that is a combinator, are not checked against. *)
Theorem X1_order_error_iff_first_entry_ranks_above h this o c :
  built h → h !! this = Some o → validated c = true →
  (invoke this c h).1 = Throw (Error order_message)
  ↔ ∃ v t0 rest,
      selectors o = Simple v t0 :: rest
      ∧ indexOf Selector_prototype.sortSelectors (type_of (entry_of c))
        < indexOf Selector_prototype.sortSelectors t0.
Proof.
  intros Hb Ho Hv. destruct (built_cache _ Hb _ _ Ho) as [Hs Hf].
  rewrite <- (out_of_order_first o _ Hs Hf).
  rewrite (invoke_step _ _ _ _ Ho). simpl. unfold step. rewrite Hv. simpl.
  destruct (out_of_order _ _); simpl; [done|].
  destruct (guarded c && _); simpl; split; done.
Qed.

(** [id('main').class('container').element('p')] throws the order error:
    the first entry, of type id, ranks above element. *)
Lemma X1_element_after_id :
  built id_class_heap ∧ id_class_heap !! 0%nat = Some id_class_object
  ∧ (invoke 0 (call_element "p") id_class_heap).1 = Throw (Error order_message).
Proof.
  split_and!; [exact id_class_heap_built|exact id_class_heap_object|].
  apply (X1_order_error_iff_first_entry_ranks_above
           id_class_heap 0%nat id_class_object (call_element "p")
           id_class_heap_built id_class_heap_object eq_refl).
  exists "main", Id, [Simple "container" Class]. split; reflexivity.
Defined.

(** X2. On a constructed builder a call throws the duplicate error exactly
    when it is [element], [id], [pseudoElement] or [combine] and the builder
    already holds an entry of that type. *)
Theorem X2_duplicate_error_iff_guarded_type_present h this o c :
  built h → h !! this = Some o →
  (invoke this c h).1 = Throw (Error duplicate_message)
  ↔ guarded c = true ∧ type_of (entry_of c) ∈ types o.
Proof.
  intros Hb Ho. destruct (built_invariants _ Hb _ _ Ho) as [Inv _].
  rewrite (invoke_step _ _ _ _ Ho). simpl. unfold step.
  assert (E : selectors (if validated c then refresh o else o) = selectors o).
  { destruct (validated c); [apply selectors_refresh|done]. }
  rewrite E.
  destruct (validated c) eqn:Hv; simpl.
  - destruct (out_of_order _ _) eqn:Hord; simpl.
    + split; [done|].
      intros [_ Hin]. exfalso.
      assert (out_of_order (type_of (entry_of c)) (validSort (refresh o)) = false);
        [|congruence].
      apply out_of_order_false. intros val Hval.
      apply Inv; [done|done|by apply validated_not_combine].
    + destruct (guarded c); simpl; [|split; [done|by intros [? _]]].
      destruct (Selector_prototype.include _ _) eqn:Hin; simpl.
      * split; [|done]. intros _. split; [done|]. by apply include_elem_of.
      * split; [done|]. intros [_ H%include_elem_of]. congruence.
  - destruct (guarded c); simpl; [|split; [done|by intros [? _]]].
    destruct (Selector_prototype.include _ _) eqn:Hin; simpl.
    + split; [|done]. intros _. split; [done|]. by apply include_elem_of.
    + split; [done|]. intros [_ H%include_elem_of]. congruence.
Qed.

(** [id('main').class('container').id('other')] throws the duplicate
    error. *)
Lemma X2_id_after_id_class :
  built id_class_heap ∧ id_class_heap !! 0%nat = Some id_class_object
  ∧ (invoke 0 (call_id "other") id_class_heap).1
    = Throw (Error duplicate_message).
Proof.
  split_and!; [exact id_class_heap_built|exact id_class_heap_object|].
  apply (X2_duplicate_error_iff_guarded_type_present
           id_class_heap 0%nat id_class_object (call_id "other")
           id_class_heap_built id_class_heap_object).
  split; [reflexivity|apply list_elem_of_here].
Defined.

(** X3. The entries of a builder only grow at the end: a call that returns
    has appended exactly its own entry, and a call that throws has left the
    entries as they were. *)
Theorem X3_call_appends_its_entry_or_nothing (h : heap) this o c :
  h !! this = Some o →
  selectors <$> (invoke this c h).2 !! this
  = Some match (invoke this c h).1 with
         | Normal _ => selectors o ++ [entry_of c]
         | Throw _ => selectors o
         end.
Proof.
  intros Ho. rewrite (invoke_step _ _ _ _ Ho). simpl.
  rewrite list_lookup_insert_eq by (by eapply lookup_lt_Some). simpl.
  rewrite selectors_step. by destruct (step c o).1.
Qed.

(** [id('main').class('container').attr('href')] appends the attribute
    entry after the two entries present. *)
Lemma X3_attr_appended :
  id_class_heap !! 0%nat = Some id_class_object
  ∧ selectors <$> (invoke 0 (call_attr "href") id_class_heap).2 !! 0%nat
    = Some [Simple "main" Id; Simple "container" Class; Simple "href" Attr].
Proof.
  split; [exact id_class_heap_object|].
  exact (X3_call_appends_its_entry_or_nothing
           id_class_heap 0%nat id_class_object (call_attr "href")
           id_class_heap_object).
Defined.

(** X4. A constructed builder holds at most one element entry, at most one
    id entry and at most one pseudo-element entry. *)
Theorem X4_guarded_types_occur_at_most_once h this o :
  built h → h !! this = Some o →
  (occurrences Element o ≤ 1)%nat
  ∧ (occurrences Id o ≤ 1)%nat
  ∧ (occurrences PseudoElement o ≤ 1)%nat.
Proof.
  intros Hb Ho. destruct (built_invariants _ Hb _ _ Ho) as [_ Hs].
  split_and!; by apply Hs.
Qed.

Lemma X4_id_class_counts :
  built id_class_heap ∧ id_class_heap !! 0%nat = Some id_class_object
  ∧ (occurrences Element id_class_object ≤ 1)%nat
  ∧ (occurrences Id id_class_object ≤ 1)%nat
  ∧ (occurrences PseudoElement id_class_object ≤ 1)%nat.
Proof.
  split_and!; [exact id_class_heap_built|exact id_class_heap_object|..];
    apply (X4_guarded_types_occur_at_most_once id_class_heap 0%nat
             id_class_object id_class_heap_built id_class_heap_object).
Defined.

(** X5. In a constructed builder whose first entry is a token entry, no
    token entry ranks below the first one.  This is the order the builder
    keeps: entries after the first are not ordered among themselves. *)
Theorem X5_first_entry_has_lowest_rank h this o v t0 rest :
  built h → h !! this = Some o → selectors o = Simple v t0 :: rest →
  ∀ v' t, Simple v' t ∈ selectors o →
    indexOf Selector_prototype.sortSelectors t0
    ≤ indexOf Selector_prototype.sortSelectors t.
Proof.
  intros Hb Ho E v' t Hin.
  destruct (built_invariants _ Hb _ _ Ho) as [Inv _].
  destruct (built_cache _ Hb _ _ Ho) as [Hs _].
  apply Inv.
  - pose proof (cache_head o Hs) as Hh. unfold types in Hh. rewrite E in Hh.
    simpl in Hh. destruct (cache o); simplify_eq/=. apply list_elem_of_here.
  - unfold types. apply list_elem_of_fmap. by exists (Simple v' t).
  - intros ->. by destruct (built_well_typed _ Hb _ _ Ho v').
Qed.

Lemma X5_id_before_class :
  built id_class_heap ∧ id_class_heap !! 0%nat = Some id_class_object
  ∧ indexOf Selector_prototype.sortSelectors Id
    ≤ indexOf Selector_prototype.sortSelectors Class.
Proof.
  split_and!; [exact id_class_heap_built|exact id_class_heap_object|].
  apply (X5_first_entry_has_lowest_rank id_class_heap 0%nat id_class_object
           "main" Id [Simple "container" Class]
           id_class_heap_built id_class_heap_object eq_refl "container" Class).
  apply list_elem_of_further, list_elem_of_here.
Defined.

(** *** Cycles *)

Lemma append_forms_normal_inv f array prev s cur :
  append_forms f array prev = Normal s → cur ∈ array →
  ∃ str, f cur = Normal str.
Proof.
  revert prev. induction array as [|c rest IH]; intros prev H Hin.
  - by apply elem_of_nil in Hin.
  - simpl in H. destruct (f c) as [str|e] eqn:E; [|done].
    apply elem_of_cons in Hin as [->|Hin]; [by eexists|by eapply IH].
Qed.

Lemma render_operands n (h : heap) a o l op r s :
  h !! a = Some o → Combined l op r ∈ selectors o →
  render (S n) h a = Normal s →
  ∃ s1 s2, render n h l = Normal s1 ∧ render n h r = Normal s2.
Proof.
  intros Ho Hin H. simpl in H. rewrite Ho in H.
  destruct (append_forms_normal_inv _ _ _ _ _ H Hin) as [str Hstr].
  simpl in Hstr. destruct (render n h l) as [s1|]; [|done].
  destruct (render n h r) as [s2|]; [|done]. by exists s1, s2.
Qed.

Lemma render_reach (h : heap) a b :
  reach h a b → ∀ n s, render n h a = Normal s →
  ∃ k s', (k ≤ n)%nat ∧ render k h b = Normal s'.
Proof.
  induction 1 as [a|a o l op r b Ho Hin _ IH|a o l op r b Ho Hin _ IH];
    intros n s H.
  - by exists n, s.
  - destruct n as [|n]; [done|].
    destruct (render_operands _ _ _ _ _ _ _ _ Ho Hin H) as (s1 & s2 & H1 & H2).
    destruct (IH _ _ H1) as (k & s' & Hk & Hs'). exists k, s'. split; [lia|done].
  - destruct n as [|n]; [done|].
    destruct (render_operands _ _ _ _ _ _ _ _ Ho Hin H) as (s1 & s2 & H1 & H2).
    destruct (IH _ _ H2) as (k & s' & Hk & Hs'). exists k, s'. split; [lia|done].
Qed.

Lemma cycle_never_renders (h : heap) this o l op r :
  h !! this = Some o → Combined l op r ∈ selectors o →
  reach h l this ∨ reach h r this →
  ∀ n s, render n h this ≠ Normal s.
Proof.
  intros Ho Hin Hcycle n. induction n as [n IH] using lt_wf_ind. intros s H.
  destruct n as [|n]; [done|].
  destruct (render_operands _ _ _ _ _ _ _ _ Ho Hin H) as (s1 & s2 & H1 & H2).
  destruct Hcycle as [Hr|Hr].
  - destruct (render_reach _ _ _ Hr _ _ H1) as (k & s' & Hk & Hs').
    apply (IH k) in Hs'; [done|lia].
  - destruct (render_reach _ _ _ Hr _ _ H2) as (k & s' & Hk & Hs').
    apply (IH k) in Hs'; [done|lia].
Qed.

(** X6. A builder that can be reached from an operand of one of its own
    combinator entries never renders: [stringify] throws at every call
    depth, and leaves the heap as it was. *)
Theorem X6_builder_on_a_cycle_never_renders (h : heap) this o l op r :
  h !! this = Some o → Combined l op r ∈ selectors o →
  reach h l this ∨ reach h r this →
  ∀ fuel, ∃ e, Selector_prototype.stringify fuel this h = (Throw e, h).
Proof.
  intros Ho Hin Hcycle fuel. rewrite stringify_render.
  destruct (render fuel h this) as [s|e] eqn:E; [|by exists e].
  by destruct (cycle_never_renders _ _ _ _ _ _ Ho Hin Hcycle fuel s).
Qed.

(** With [b = element('a')] and [l = combine(b, '+', b)], after
    [b.combine(l, '>', l)] the builder [b] is an operand of its operand. *)
Lemma X6_two_builders_in_a_cycle :
  let h := (Selector_prototype.combine 0 1 ">" 1
              (cssSelectorBuilder.combine 0 "+" 0
                 (cssSelectorBuilder.element "a" []).2).2).2 in
  ∃ e, Selector_prototype.stringify 7 0 h = (Throw e, h).
Proof.
  intros h.
  apply (X6_builder_on_a_cycle_never_renders h 0%nat
           {| selectors := [Simple "a" Element; Combined 1 ">" 1];
              validSort := [] |} 1%nat ">" 1%nat).
  - reflexivity.
  - apply list_elem_of_further, list_elem_of_here.
  - left.
    apply (reach_selector1 h 1%nat
             {| selectors := [Combined 0 "+" 0]; validSort := [] |}
             0%nat "+" 0%nat 0%nat);
      [reflexivity|apply list_elem_of_here|apply reach_here].
Defined.

(** *** Heaps made through the facade *)

Lemma facade_heap c h :
  facade c h
  = (Normal (length h),
     h ++ [{| selectors := [entry_of c]; validSort := [] |}]).
Proof.
  transitivity ((this <- new_Selector ;; invoke this c) h);
    [by destruct c|].
  rewrite facade_step. by destruct c.
Qed.

Lemma facade_built_built h : facade_built h → built h.
Proof.
  induction 1 as [|h c _ IH _|h this c _ IH _].
  - constructor.
  - rewrite facade_heap. simpl.
    pose proof (built_invoke _ (length h) c (built_new _ IH)) as Hb.
    change (new_Selector h).2 with (h ++ [empty_Selector]) in Hb.
    assert (Ho : (h ++ [empty_Selector]) !! length h = Some empty_Selector)
      by apply list_lookup_middle, eq_refl.
    rewrite (invoke_step _ _ _ _ Ho) in Hb. simpl in Hb.
    replace (length h) with (length h + 0)%nat in Hb at 1 by lia.
    rewrite insert_app_r in Hb. simpl in Hb.
    replace (step c empty_Selector).2
      with {| selectors := [entry_of c]; validSort := [] |} in Hb; [done|].
    by destruct c.
  - by constructor.
Qed.

Lemma facade_built_ordered h : facade_built h → ordered h.
Proof.
  induction 1 as [|h c _ IH Hops|h this c _ IH Hv]; intros a o l op r Ho Hin.
  - done.
  - rewrite facade_heap in Ho. simpl in Ho.
    apply lookup_app_Some in Ho as [Ho|[Hle Ho]]; [by eapply IH|].
    apply list_lookup_singleton_Some in Ho as [Ha <-]. simpl in Hin.
    apply list_elem_of_singleton in Hin.
    destruct c; simplify_eq/=. lia.
  - destruct (h !! this) as [o0|] eqn:E0.
    + rewrite (invoke_step _ _ _ _ E0) in Ho. simpl in Ho.
      destruct (decide (this = a)) as [->|Hne].
      * rewrite list_lookup_insert_eq in Ho by (by eapply lookup_lt_Some).
        simplify_eq. rewrite selectors_step in Hin.
        destruct (step c o0).1; [|by eapply IH].
        apply elem_of_app in Hin as [Hin|Hin%list_elem_of_singleton];
          [by eapply IH|]. by destruct c.
      * rewrite list_lookup_insert_ne in Ho by done. by eapply IH.
    + rewrite (invoke_none _ _ _ E0) in Ho. by eapply IH.
Qed.

Lemma ordered_ranked (h : heap) : ordered h → ranked h (λ a, a).
Proof.
  intros Hord a o l op r Ho Hin.
  destruct (Hord _ _ _ _ _ Ho Hin) as [Hl Hr].
  apply lookup_lt_Some in Ho.
  split_and!; [apply lookup_lt_is_Some; lia..|done|done].
Qed.

(** X7. In a heap made through the facade (entry points of
    [cssSelectorBuilder] and token methods chained on their results),
    [stringify] returns a string for every builder, within a call depth of
    its address plus one. *)
Theorem X7_stringify_returns_on_facade_heaps h this :
  facade_built h → (this < length h)%nat →
  ∃ s, Selector_prototype.stringify (S this) this h = (Normal s, h).
Proof.
  intros Hf Hthis.
  destruct (render_total h (λ a, a)
              (built_well_typed h (facade_built_built h Hf))
              (ordered_ranked h (facade_built_ordered h Hf))
              (S this) this) as [s Hs]; [lia|by apply lookup_lt_is_Some|].
  exists s. by rewrite stringify_render, Hs.
Qed.

(** The heap of [combine(element('div').id('main'), '+', element('table'))]
    is made through the facade. *)
Lemma X7_combined_builder_returns :
  let h := ((left <- (b <- cssSelectorBuilder.element "div" ;;
                      Selector_prototype.id b "main") ;;
             right <- cssSelectorBuilder.element "table" ;;
             cssSelectorBuilder.combine left "+" right) []).2 in
  ∃ s, Selector_prototype.stringify 3 2 h = (Normal s, h).
Proof.
  intros h.
  apply (X7_stringify_returns_on_facade_heaps h 2%nat).
  - refine (facade_entry _ (call_combine 0 "+" 1)
              (facade_entry _ (call_element "table")
                 (facade_token _ 0%nat (call_id "main")
                    (facade_entry _ (call_element "div") facade_empty I)
                    eq_refl) I) _).
    simpl. lia.
  - simpl. lia.
Defined.

(** *** Heaps whose operands exist *)

Lemma linked_closed h : linked h → closed h.
Proof.
  induction 1 as [|h _ IH|h this c _ IH Hops]; intros a o l op r Ho Hin.
  - done.
  - simpl in *. rewrite length_app. simpl.
    apply lookup_app_Some in Ho as [Ho|[_ Ho]].
    + destruct (IH _ _ _ _ _ Ho Hin). lia.
    + apply list_lookup_singleton_Some in Ho as [_ <-].
      by apply elem_of_nil in Hin.
  - destruct (invoke_heap this c h) as [o' E]. rewrite E, length_insert.
    clear E o'. destruct (h !! this) as [o0|] eqn:E0.
    + rewrite (invoke_step _ _ _ _ E0) in Ho. simpl in Ho.
      destruct (decide (this = a)) as [->|Hne].
      * rewrite list_lookup_insert_eq in Ho by (by eapply lookup_lt_Some).
        simplify_eq. rewrite selectors_step in Hin.
        destruct (step c o0).1; [|exact (IH _ _ _ _ _ E0 Hin)].
        apply elem_of_app in Hin as [Hin|Hin%list_elem_of_singleton];
          [exact (IH _ _ _ _ _ E0 Hin)|]. destruct c; by simplify_eq/=.
      * rewrite list_lookup_insert_ne in Ho by done.
        exact (IH _ _ _ _ _ Ho Hin).
    + rewrite (invoke_none _ _ _ E0) in Ho. exact (IH _ _ _ _ _ Ho Hin).
Qed.

Lemma render_app_closed n (h : heap) o' a :
  closed h → (a < length h)%nat → render n (h ++ [o']) a = render n h a.
Proof.
  intros Hc Ha. apply render_ext. intros b Hb.
  rewrite lookup_app_l; [done|]. by eapply reach_closed.
Qed.

Lemma renders_lt (h : heap) a s : renders h a s → (a < length h)%nat.
Proof.
  intros [[|n] H]%renders_render; [done|]. simpl in H.
  destruct (h !! a) eqn:E; [|done]. by eapply lookup_lt_Some.
Qed.

(** X8. When the operands exist and render [s1] and [s2], the builder that
    [cssSelectorBuilder.combine(left, op, right)] returns is new and renders
    [s1], a space, [op], a space and [s2]. *)
Theorem X8_facade_combine_renders_operands_around_operator
    h left op right s1 s2 :
  linked h → renders h left s1 → renders h right s2 →
  ∃ h1, cssSelectorBuilder.combine left op right h = (Normal (length h), h1)
        ∧ h !! length h = None
        ∧ renders h1 (length h) (s1 +:+ " " +:+ op +:+ " " +:+ s2).
Proof.
  intros Hl H1 H2. pose proof (linked_closed _ Hl) as Hc.
  pose proof (renders_lt _ _ _ H1) as Hlt1.
  pose proof (renders_lt _ _ _ H2) as Hlt2.
  apply renders_render in H1 as [n1 H1]. apply renders_render in H2 as [n2 H2].
  eexists. split; [apply (facade_heap (call_combine left op right))|].
  split; [by apply lookup_ge_None_2|].
  apply renders_render. exists (S (n1 `max` n2)). simpl.
  rewrite list_lookup_middle by done. simpl.
  rewrite !render_app_closed by done.
  rewrite (render_mono n1 (n1 `max` n2) _ _ _ ltac:(lia) H1).
  by rewrite (render_mono n2 (n1 `max` n2) _ _ _ ltac:(lia) H2).
Qed.

(** [combine(element('div').id('main'), '~', element('table'))]. *)
Lemma X8_div_main_table :
  let h := ((left <- (b <- cssSelectorBuilder.element "div" ;;
                      Selector_prototype.id b "main") ;;
             cssSelectorBuilder.element "table") []).2 in
  ∃ h1, cssSelectorBuilder.combine 0 "~" 1 h = (Normal 2%nat, h1)
        ∧ h !! 2%nat = None
        ∧ renders h1 2 "div#main ~ table".
Proof.
  intros h.
  apply (X8_facade_combine_renders_operands_around_operator
           h 0%nat "~" 1%nat "div#main" "table").
  - exact (linked_invoke _ 1%nat (call_element "table")
             (linked_new _
                (linked_invoke _ 0%nat (call_id "main")
                   (linked_invoke _ 0%nat (call_element "div")
                      (linked_new _ linked_empty) I) I)) I).
  - by exists 1%nat.
  - by exists 1%nat.
Defined.

(** *** The text a token method adds *)

Lemma append_forms_app f a b prev :
  append_forms f (a ++ b) prev
  = match append_forms f a prev with
    | Normal s => append_forms f b s
    | Throw e => Throw e
    end.
Proof.
  revert prev. induction a as [|cur rest IH]; intros prev; simpl; [done|].
  destruct (f cur); [apply IH|done].
Qed.

(** X9. When [stringify] returns [s] on a builder and a token method then
    returns on it, [stringify] on the returned builder returns [s] followed
    by the text of the new entry. *)
Theorem X9_token_method_appends_its_text
    h this c r h' fuel s text :
  validated c = true →
  invoke this c h = (Normal r, h') →
  Selector_prototype.stringify fuel this h = (Normal s, h) →
  entry_text h (entry_of c) text →
  Selector_prototype.stringify fuel r h' = (Normal (s +:+ text), h').
Proof.
  intros Hv Hcall Hs Htext.
  destruct (h !! this) as [o|] eqn:Ho;
    [|by rewrite (invoke_none _ _ _ Ho) in Hcall].
  rewrite (invoke_step _ _ _ _ Ho) in Hcall.
  pose proof (selectors_step c o) as Hsel.
  destruct (step c o).1 as [[]|]; simplify_eq/=.
  rewrite stringify_render in Hs. rewrite stringify_render. f_equal.
  destruct fuel as [|n]; [by simplify_eq/=|].
  assert (Hr : render (S n) h r = Normal s) by congruence.
  simpl. rewrite list_lookup_insert_eq by (by eapply lookup_lt_Some).
  rewrite Hsel, append_forms_app.
  rewrite (append_forms_ext _ (entry_form (render n h))).
  - simpl in Hr. rewrite Ho in Hr. rewrite Hr.
    destruct c; by simplify_eq/=.
  - intros [value type|l op r'] Hin; [done|]. simpl.
    rewrite !render_insert_unreachable; [done|..]; intros Hreach;
      by eapply (cycle_never_renders h r o l op r'); eauto.
Qed.

(** [id('main').class('container').attr('href')] renders the text of
    [id('main').class('container')] followed by ['[href]']. *)
Lemma X9_attr_text_appended :
  let h' := (invoke 0 (call_attr "href") id_class_heap).2 in
  Selector_prototype.stringify 1 0 id_class_heap
  = (Normal "#main.container", id_class_heap)
  ∧ Selector_prototype.stringify 1 0 h' = (Normal "#main.container[href]", h').
Proof.
  intros h'. split; [reflexivity|].
  apply (X9_token_method_appends_its_text
           id_class_heap 0%nat (call_attr "href") 0%nat h' 1%nat
           "#main.container" "[href]"); reflexivity.
Defined.

(** X10. [cssSelectorBuilder.combine] changes no builder that exists: each
    is the object it was and [stringify] on it completes as before. *)
Theorem X10_facade_combine_leaves_existing_builders
    h selector1 combinator selector2 a fuel :
  linked h → (a < length h)%nat →
  let h1 := (cssSelectorBuilder.combine selector1 combinator selector2 h).2 in
  h1 !! a = h !! a
  ∧ (Selector_prototype.stringify fuel a h1).1
    = (Selector_prototype.stringify fuel a h).1.
Proof.
  intros Hl Ha. apply facade_combine_frames; [by apply linked_closed|done].
Qed.

(** Combining [element('a')] with itself leaves it as it was. *)
Lemma X10_operand_unchanged :
  let h := (cssSelectorBuilder.element "a" []).2 in
  let h1 := (cssSelectorBuilder.combine 0 "+" 0 h).2 in
  h1 !! 0%nat = h !! 0%nat
  ∧ (Selector_prototype.stringify 1 0 h1).1
    = (Selector_prototype.stringify 1 0 h).1.
Proof.
  intros h h1.
  apply (X10_facade_combine_leaves_existing_builders h 0%nat "+" 0%nat 0%nat 1%nat).
  - exact (linked_invoke _ 0%nat (call_element "a")
             (linked_new _ linked_empty) I).
  - simpl. lia.
Defined.

(** *** Chains of calls in order *)

Lemma refresh_nonempty o : selectors o ≠ [] → validSort (refresh o) ≠ [].
Proof.
  unfold refresh, types. destruct (validSort o) eqn:E; simpl; [|congruence].
  by destruct (selectors o).
Qed.

Lemma chain_in_order cs : ∀ (h : heap) this o,
  h !! this = Some o → selectors o ≠ [] → in_order cs = true →
  (∀ c val, c ∈ cs → val ∈ cache o →
     indexOf Selector_prototype.sortSelectors val
     ≤ indexOf Selector_prototype.sortSelectors (type_of (entry_of c))) →
  (∀ c, c ∈ cs → guarded c = true → type_of (entry_of c) ∉ types o) →
  chain this cs h
  = (Normal this,
     <[this := {| selectors := selectors o ++ (entry_of <$> cs);
                  validSort := match cs with
                               | [] => validSort o
                               | _ :: _ => validSort (refresh o)
                               end |}]> h).
Proof.
  induction cs as [|c rest IH]; intros h this o Ho Hne Hord Hcache Hdup.
  - simpl. unfold ret. rewrite app_nil_r. f_equal. symmetry.
    apply list_insert_id. by destruct o.
  - simpl in Hord. apply andb_true_iff in Hord as [[Hv Hfollow]%andb_true_iff Hrest].
    rewrite forallb_forall in Hfollow.
    assert (Hstep : step c o = (Normal tt, pushed (refresh o) (entry_of c))).
    { unfold step. rewrite Hv. simpl.
      replace (out_of_order _ _) with false.
      2:{ symmetry. apply out_of_order_false. intros val Hval.
          apply Hcache; [apply list_elem_of_here|done]. }
      destruct (guarded c) eqn:Hg; simpl; [|done].
      destruct (Selector_prototype.include _ _) eqn:Hin; [|done].
      apply include_elem_of in Hin. rewrite selectors_refresh in Hin.
      by destruct (Hdup c (list_elem_of_here _ _) Hg). }
    simpl. unfold bind at 1. rewrite (invoke_step _ _ _ _ Ho), Hstep. simpl.
    assert (Hlt : (this < length h)%nat) by (by eapply lookup_lt_Some).
    rewrite (IH _ this (pushed (refresh o) (entry_of c))).
    + rewrite list_insert_insert_eq. do 3 f_equal.
      * simpl. rewrite selectors_refresh. by rewrite <- app_assoc.
      * destruct rest; [done|]. unfold refresh at 1. simpl.
        by destruct (validSort (refresh o)) eqn:E;
          [destruct (refresh_nonempty o Hne)|].
    + by apply list_lookup_insert_eq.
    + simpl. by destruct (selectors (refresh o)).
    + done.
    + intros c' val Hc' Hval.
      assert (Hf : may_follow c c' = true)
        by (by apply Hfollow, list_elem_of_In).
      apply andb_true_iff in Hf as [Hle%Z.leb_le _].
      apply cache_pushed in Hval as [Hval|[_ ->]]; [|done].
      rewrite cache_refresh in Hval.
      apply Hcache; [by apply list_elem_of_further|done].
    + intros c' Hc' Hg. rewrite types_pushed, types_refresh.
      assert (Hf : may_follow c c' = true)
        by (by apply Hfollow, list_elem_of_In).
      apply andb_true_iff in Hf as [_ Hnd]. rewrite Hg in Hnd. simpl in Hnd.
      apply negb_true_iff, bool_decide_eq_false in Hnd.
      intros [Hin|Hin%list_elem_of_singleton]%elem_of_app; [|congruence].
      by apply (Hdup c' (list_elem_of_further _ _ _ Hc') Hg).
Qed.

(** X11. A chain of token methods started at the facade whose types never
    go down in rank and never repeat element, id or pseudo-element returns
    normally at every step; the new builder holds exactly the entries of
    the calls, in call order. *)
Theorem X11_chain_in_order_succeeds h c cs :
  in_order (c :: cs) = true →
  (b <- facade c ;; chain b cs) h
  = (Normal (length h),
     h ++ [{| selectors := entry_of <$> (c :: cs);
              validSort := match cs with
                           | [] => []
                           | _ :: _ => [type_of (entry_of c)]
                           end |}]).
Proof.
  intros Hord. unfold bind. rewrite facade_heap.
  set (o1 := {| selectors := [entry_of c]; validSort := [] |}).
  simpl in Hord.
  apply andb_true_iff in Hord as [[Hv Hfollow]%andb_true_iff Hrest].
  rewrite forallb_forall in Hfollow.
  rewrite (chain_in_order cs (h ++ [o1]) (length h) o1).
  - f_equal. replace (length h) with (length h + 0)%nat at 1 by lia.
    rewrite insert_app_r. simpl. by destruct cs.
  - by apply list_lookup_middle.
  - done.
  - done.
  - intros c' val Hc' Hval. apply list_elem_of_singleton in Hval as ->.
    assert (Hf : may_follow c c' = true)
      by (by apply Hfollow, list_elem_of_In).
    by apply andb_true_iff in Hf as [Hle%Z.leb_le _].
  - intros c' Hc' Hg Hin. apply list_elem_of_singleton in Hin.
    assert (Hf : may_follow c c' = true)
      by (by apply Hfollow, list_elem_of_In).
    apply andb_true_iff in Hf as [_ Hnd]. rewrite Hg in Hnd. simpl in Hnd.
    apply negb_true_iff, bool_decide_eq_false in Hnd. congruence.
Qed.

(** [element('a').id('main').class('x').class('y').attr('href')
    .pseudoClass('hover').pseudoElement('after')] on a new builder. *)
Lemma X11_full_selector :
  (b <- cssSelectorBuilder.element "a" ;;
   chain b [call_id "main"; call_class "x"; call_class "y"; call_attr "href";
            call_pseudoClass "hover"; call_pseudoElement "after"]) []
  = (Normal 0%nat,
     [{| selectors := [Simple "a" Element; Simple "main" Id; Simple "x" Class;
                       Simple "y" Class; Simple "href" Attr;
                       Simple "hover" PseudoClass;
                       Simple "after" PseudoElement];
         validSort := [Element] |}]).
Proof.
  exact (X11_chain_in_order_succeeds []
           (call_element "a")
           [call_id "main"; call_class "x"; call_class "y"; call_attr "href";
            call_pseudoClass "hover"; call_pseudoElement "after"] eq_refl).
Defined.
